(** * ProductListApp: the product browser of [src/App.tsx]

    A shallow embedding of the single React component [App]: its four
    pieces of state, the two effects (initial fetch, search debounce),
    the three event handlers, the memoised filter and the JSX it
    returns.  The browser pieces the component leans on (the timer
    table behind [setTimeout]/[clearTimeout], the settlement of the
    [fetch] promise, the clock) are part of the modelled state. *)

From Stdlib Require Import Floats Ascii String.
From stdpp Require Import gmap strings list fin_maps pretty.

Set Default Proof Using "Type".

(** ** Data model *)

(** [interface Product]; [productPrice] is a JavaScript number. *)
Record Product := mkProduct {
  productId : string;
  productName : string;
  productPrice : float;
  productImage : string;
}.

(** The value type of [ImageLoadingState]: [boolean | "error"]. *)
Inductive ImageFlag :=
| Flag (b : bool)
| ErrorTag.

(** [type ImageLoadingState = { [key: string]: boolean | "error" }].
    A lookup of an absent key is [None]; in JavaScript it yields
    [undefined] (or a member inherited from [Object.prototype]), and
    the component only ever compares the result with [false] and with
    ["error"], which neither of those is equal to. *)
Abbreviation ImageLoadingState := (gmap string ImageFlag).

#[global] Instance ImageFlag_eq_dec : EqDecision ImageFlag.
Proof. solve_decision. Defined.

(** ** String primitives *)

(** [String.prototype.includes]: [t] occurs in [s] at some position. *)
Fixpoint includes (s t : string) : bool :=
  String.prefix t s ||
  match s with
  | EmptyString => false
  | String _ s' => includes s' t
  end.

(** The words of the specification: [t] is a substring of [s]. *)
Definition substring_of (t s : string) : Prop :=
  ∃ pre post, s = pre +:+ t +:+ post.

(** ASCII lower-casing, the instance of [toLowerCase] used for the
    concrete scenarios below. *)
Definition ascii_lower (c : ascii) : ascii :=
  let n := nat_of_ascii c in
  if ((65 <=? n) && (n <=? 90))%nat then ascii_of_nat (n + 32)%nat else c.

Fixpoint asciiToLowerCase (s : string) : string :=
  match s with
  | EmptyString => EmptyString
  | String c s' => String (ascii_lower c) (asciiToLowerCase s')
  end.

(** The subsequence of [l] selected by [P], as a relation: walk the list
    once, keep what satisfies [P], drop the rest. *)
Inductive selected {A} (P : A → Prop) : list A → list A → Prop :=
| selected_nil : selected P [] []
| selected_keep x l k : P x → selected P l k → selected P (x :: l) (x :: k)
| selected_drop x l k : ¬ P x → selected P l k → selected P (x :: l) k.

(** ** The product filter *)

Section Filter.
(** [String.prototype.toLowerCase] follows the Unicode case tables;
    the component is modelled for an arbitrary lower-casing function. *)
Variable toLowerCase : string → string.

(** The callback of [products.filter] in the [useMemo]. *)
Definition matchesQuery (debouncedSearchKey : string) (product : Product) : bool :=
  includes (toLowerCase (productName product)) (toLowerCase debouncedSearchKey).

(** [filteredProducts]: [Array.prototype.filter] keeps, in order, the
    elements the callback accepts. *)
Definition filteredProducts (products : list Product) (debouncedSearchKey : string)
  : list Product :=
  List.filter (matchesQuery debouncedSearchKey) products.

(** The specification's matching condition. *)
Definition name_contains (query : string) (product : Product) : Prop :=
  substring_of (toLowerCase query) (toLowerCase (productName product)).
End Filter.

(** ** Image status *)

(** The updater [handleImageLoad] hands to [setImageLoading]:
    [{ ...prevState, [productId]: false }]. *)
Definition handleImageLoad (productId : string) (prevState : ImageLoadingState)
  : ImageLoadingState :=
  <[productId := Flag false]> prevState.

(** The updater [handleImageError] hands to [setImageLoading]:
    [{ ...prevState, [productId]: "error" }]. *)
Definition handleImageError (productId : string) (prevState : ImageLoadingState)
  : ImageLoadingState :=
  <[productId := ErrorTag]> prevState.

(** [imageLoading[id] === v]. *)
Definition strictEq (entry : option ImageFlag) (v : ImageFlag) : bool :=
  bool_decide (entry = Some v).

(** The three statuses of the specification, read off a map entry the
    way the JSX tells them apart: [false] is loaded, ["error"] is error,
    anything else (no entry, or [true]) is pending. *)
Inductive Status := pending | loaded | error.

Definition status (imageLoading : ImageLoadingState) (id : string) : Status :=
  match imageLoading !! id with
  | Some (Flag false) => loaded
  | Some ErrorTag => error
  | Some (Flag true) | None => pending
  end.

(** The two image events of a card, as signals. *)
Inductive Signal :=
| LoadSignal (productId : string)
| ErrorSignal (productId : string).

Definition signalId (g : Signal) : string :=
  match g with LoadSignal i | ErrorSignal i => i end.

Definition handleSignal (prevState : ImageLoadingState) (g : Signal)
  : ImageLoadingState :=
  match g with
  | LoadSignal i => handleImageLoad i prevState
  | ErrorSignal i => handleImageError i prevState
  end.

Definition signalStatus (g : Signal) : Status :=
  match g with LoadSignal _ => loaded | ErrorSignal _ => error end.

(** ** The rendered tree *)

Inductive PlaceholderChild :=
| Text (s : string)
| SpinnerContainer.

Record Img := mkImg {
  src : string;
  alt : string;
  className : string;
  displayNone : bool;   (* [style] is [{ display: "none" }] rather than [{}] *)
}.

Record Card := mkCard {
  key : string;
  placeholder : option PlaceholderChild;   (* the [div.placeholder], when rendered *)
  img : Img;
  cardName : string;
  cardPrice : float;
}.

Record View := mkView {
  heading : string;
  inputValue : string;
  cards : list Card;
}.

(** One [div.card] of the [map] over [filteredProducts]. *)
Definition renderCard (imageLoading : ImageLoadingState) (prod : Product) : Card :=
  let entry := imageLoading !! productId prod in
  {| key := productId prod;
     placeholder :=
       if negb (strictEq entry (Flag false)) then
         Some (if strictEq entry ErrorTag then Text "Image not available"
               else SpinnerContainer)
       else None;
     img :=
       {| src := productImage prod;
          alt := productName prod +:+ " Image";
          className :=
            "product-image " +:+ (if strictEq entry (Flag false) then "loaded" else "");
          displayNone := if strictEq entry (Flag false) then false else true |};
     cardName := productName prod;
     cardPrice := productPrice prod |}.

(** What a card shows for its image. *)
Inductive RenderKind := PendingRender | ErrorRender | LoadedRender.

Definition shows (k : RenderKind) (c : Card) : Prop :=
  match k with
  | PendingRender =>
      placeholder c = Some SpinnerContainer ∧ displayNone (img c) = true
  | ErrorRender =>
      placeholder c = Some (Text "Image not available") ∧ displayNone (img c) = true
  | LoadedRender =>
      placeholder c = None ∧ displayNone (img c) = false
  end.

(** The render the specification attaches to each status. *)
Definition renderKind (st : Status) : RenderKind :=
  match st with
  | pending => PendingRender
  | error => ErrorRender
  | loaded => LoadedRender
  end.

(** ** Browser environment *)

(** A pending [setTimeout]: its id, the instant it is due (ms) and the
    [searchKey] its callback closed over. *)
Record Timer := mkTimer {
  timerId : nat;
  deadline : nat;
  captured : string;
}.

Definition clearTimeout (id : nat) (timers : list Timer) : list Timer :=
  List.filter (λ t, negb (Nat.eqb (timerId t) id)) timers.

(** How the promise of [fetch] and of [response.json()] settles. *)
Inductive FetchOutcome :=
| FetchRejected (reason : string)
| FetchResponse (status : nat) (json : string + list Product).
   (* [inl reason]: [response.json()] rejects; [inr ps]: [jsonData.products] *)

(** [response.ok]. *)
Definition responseOk (status : nat) : bool :=
  ((200 <=? status) && (status <=? 299))%nat.

(** Effects visible outside the component. *)
Inductive Action :=
| FetchCall (url : string)
| SetDebouncedSearchKey (time : nat) (value : string)
| ConsoleError (label : string) (error : string).

Definition productsUrl : string :=
  "https://1e0ba872-6030-405d-9881-8b7455d2ebdf.mock.pstmn.io/api/v1/products".

Definition debounceDelay : nat := 300.

(** ** Component state *)

Record State := mkState {
  mounted : bool;
  products : list Product;
  searchKey : string;
  debouncedSearchKey : string;
  imageLoading : ImageLoadingState;
  handler : option nat;   (* the [handler] the debounce cleanup closed over *)
  now : nat;
  timers : list Timer;
  nextTimerId : nat;
  fetchInFlight : bool;
}.

(** The [try] block of [fetchProducts] once the promise has settled:
    [inl e] is the error that reaches [catch], [inr ps] the argument of
    [setProducts]. *)
Definition fetchProducts (o : FetchOutcome) : string + list Product :=
  match o with
  | FetchRejected e => inl e
  | FetchResponse st json =>
      if negb (responseOk st) then inl ("HTTP error! status: " +:+ pretty st)
      else json
  end.

Definition settleFetch (o : FetchOutcome) (s : State) : State * list Action :=
  match fetchProducts o with
  | inr ps =>
      (mkState (mounted s) ps (searchKey s) (debouncedSearchKey s)
         (imageLoading s) (handler s) (now s) (timers s) (nextTimerId s) false, [])
  | inl e =>
      (mkState (mounted s) (products s) (searchKey s) (debouncedSearchKey s)
         (imageLoading s) (handler s) (now s) (timers s) (nextTimerId s) false,
       [ConsoleError "Failed to fetch products:" e])
  end.

(** Body of the debounce effect: [setTimeout(..., 300)], the returned
    id kept for the cleanup. *)
Definition debounceEffect (s : State) : State :=
  let id := nextTimerId s in
  mkState (mounted s) (products s) (searchKey s) (debouncedSearchKey s)
    (imageLoading s) (Some id) (now s)
    (timers s ++ [mkTimer id (now s + debounceDelay) (searchKey s)])
    (S id) (fetchInFlight s).

(** Cleanup of the debounce effect: [clearTimeout(handler)]. *)
Definition debounceCleanup (s : State) : State :=
  match handler s with
  | Some id =>
      mkState (mounted s) (products s) (searchKey s) (debouncedSearchKey s)
        (imageLoading s) None (now s) (clearTimeout id (timers s))
        (nextTimerId s) (fetchInFlight s)
  | None => s
  end.

(** [handleSearchChange]: [setSearchKey(event.target.value)].  A value
    equal to the current one causes no re-render; otherwise the effect
    keyed on [searchKey] is cleaned up and run again. *)
Definition handleSearchChange (value : string) (s : State) : State :=
  if bool_decide (value = searchKey s) then s
  else
    debounceEffect (debounceCleanup
      (mkState (mounted s) (products s) value (debouncedSearchKey s)
         (imageLoading s) (handler s) (now s) (timers s) (nextTimerId s)
         (fetchInFlight s))).

Definition setImageLoading (f : ImageLoadingState → ImageLoadingState) (s : State)
  : State :=
  mkState (mounted s) (products s) (searchKey s) (debouncedSearchKey s)
    (f (imageLoading s)) (handler s) (now s) (timers s) (nextTimerId s)
    (fetchInFlight s).

(** The timeout callback: [setDebouncedSearchKey(searchKey)] with the
    captured [searchKey]. *)
Definition fire (s : State) (t : Timer) : State :=
  mkState (mounted s) (products s) (searchKey s) (captured t)
    (imageLoading s) (handler s) (now s) (timers s) (nextTimerId s)
    (fetchInFlight s).

Definition fired (t : Timer) : Action :=
  SetDebouncedSearchKey (deadline t) (captured t).

(** [ms] milliseconds pass: the timers that fall due run, oldest first,
    each at its deadline, and leave the table. *)
Definition elapse (ms : nat) (s : State) : State * list Action :=
  let t' := now s + ms in
  let due := List.filter (λ t, Nat.leb (deadline t) t') (timers s) in
  let rest := List.filter (λ t, negb (Nat.leb (deadline t) t')) (timers s) in
  let s1 := foldl fire s due in
  (mkState (mounted s1) (products s1) (searchKey s1) (debouncedSearchKey s1)
     (imageLoading s1) (handler s1) t' rest (nextTimerId s1) (fetchInFlight s1),
   fired <$> due).

(** Teardown: the effect cleanups run. *)
Definition unmount (s : State) : State :=
  let s1 := debounceCleanup s in
  mkState false (products s1) (searchKey s1) (debouncedSearchKey s1)
    (imageLoading s1) (handler s1) (now s1) (timers s1) (nextTimerId s1)
    (fetchInFlight s1).

(** First render at instant [t0] followed by the two effects. *)
Definition mount (t0 : nat) : State * list Action :=
  let s0 := mkState true [] "" "" ∅ None t0 [] 1 true in
  (debounceEffect s0, [FetchCall productsUrl]).

Inductive Event :=
| Change (value : string)           (* [onChange] of the search input *)
| ImageLoad (productId : string)    (* [onLoad] of the image of a card *)
| ImageError (productId : string)   (* [onError] of the image of a card *)
| FetchSettled (o : FetchOutcome)
| Elapse (ms : nat)
| Unmount.

Section Component.
Variable toLowerCase : string → string.

(** The [return] of [App]. *)
Definition render (s : State) : View :=
  {| heading := "Products List";
     inputValue := searchKey s;
     cards := renderCard (imageLoading s)
                <$> filteredProducts toLowerCase (products s) (debouncedSearchKey s) |}.

(** A card for [id] is on the page, so its image can raise events. *)
Definition displayed (id : string) (s : State) : bool :=
  bool_decide (id ∈ key <$> cards (render s)).

(** One event of the page.  DOM events reach the component only while
    it is mounted (image events only for a card on the page); the
    fetch settles once; state setters are applied as issued. *)
Definition step (s : State) (e : Event) : State * list Action :=
  match e with
  | Change v =>
      if mounted s then (handleSearchChange v s, []) else (s, [])
  | ImageLoad id =>
      if mounted s && displayed id s
      then (setImageLoading (handleImageLoad id) s, []) else (s, [])
  | ImageError id =>
      if mounted s && displayed id s
      then (setImageLoading (handleImageError id) s, []) else (s, [])
  | FetchSettled o =>
      if fetchInFlight s then settleFetch o s else (s, [])
  | Elapse ms => elapse ms s
  | Unmount =>
      if mounted s then (unmount s, []) else (s, [])
  end.

Fixpoint run (s : State) (es : list Event) : State * list Action :=
  match es with
  | [] => (s, [])
  | e :: es' =>
      let (s1, a1) := step s e in
      let (s2, a2) := run s1 es' in
      (s2, (a1 ++ a2)%list)
  end.

(** The states the component can be in: those reached from a mount by
    some sequence of events. *)
Definition reachable (s : State) : Prop :=
  ∃ t0 es, s = (run (mount t0).1 es).1.
End Component.

(** The raw values entered by a sequence of events. *)
Definition typed (es : list Event) : list string :=
  omap (λ e, match e with Change v => Some v | _ => None end) es.

(** [v] is a value the raw query held at some point of the run [es]
    started in [s0]: the value of [searchKey] after some first part of
    the events. *)
Definition held (toLowerCase : string → string)
    (s0 : State) (es : list Event) (v : string) : Prop :=
  ∃ es1 es2, es = (es1 ++ es2)%list ∧ searchKey (run toLowerCase s0 es1).1 = v.

(** The [setDebouncedSearchKey] calls among some actions. *)
Definition emissions (acts : list Action) : list (nat * string) :=
  omap (λ a, match a with SetDebouncedSearchKey t v => Some (t, v) | _ => None end) acts.

(** A run of keystrokes: each value entered, then the time until the
    next event. *)
Fixpoint keystrokes (b : list (string * nat)) : list Event :=
  match b with
  | [] => []
  | (v, gap) :: b' => Change v :: Elapse gap :: keystrokes b'
  end.

(** Each value of [vs] differs from the one before it, starting from
    [prev]: every entry is a change of the raw query. *)
Fixpoint changes (prev : string) (vs : list string) : Prop :=
  match vs with
  | [] => True
  | v :: vs' => v ≠ prev ∧ changes v vs'
  end.

(** The fetch fails: the promise rejects, the response is not 2xx, or
    reading its body throws. *)
Definition failed (o : FetchOutcome) : bool :=
  match o with
  | FetchRejected _ => true
  | FetchResponse st json =>
      negb (responseOk st) || (if json is inl _ then true else false)
  end.

Definition isFetchCall (a : Action) : bool :=
  if a is FetchCall _ then true else false.

(** What the timers of a state owe to the debounce effect: every
    pending timer is the one the current cleanup will clear, and none is
    left once the component is torn down. *)
Definition timersOwned (s : State) : Prop :=
  (∀ t, t ∈ timers s → handler s = Some (timerId t))
  ∧ (mounted s = false → timers s = []).

(** The allowed moves of the specification's status automaton. *)
Definition forwardOnly (before after : Status) : Prop :=
  before = after ∨ (before = pending ∧ (after = loaded ∨ after = error)).

(** The time that passes during a sequence of events. *)
Definition elapsed (es : list Event) : nat :=
  sum_list (omap (λ e, match e with Elapse ms => Some ms | _ => None end) es).

(** [e] is the load or the error event of the image of [id]. *)
Definition imageEventFor (id : string) (e : Event) : bool :=
  match e with
  | ImageLoad i | ImageError i => bool_decide (i = id)
  | _ => false
  end.

Definition isFetchSettled (e : Event) : bool :=
  if e is FetchSettled _ then true else false.

(** The shape of the timer table the debounce effect maintains: at
    most one timer is pending; it carries the current raw query, is the
    one the cleanup holds, and falls due within the next 300 ms; and
    when the mounted component has none pending, the debounced query
    has caught up with the raw one. *)
Definition debounceInv (s : State) : Prop :=
  length (timers s) ≤ 1
  ∧ (∀ t, t ∈ timers s →
       captured t = searchKey s ∧ handler s = Some (timerId t)
       ∧ now s < deadline t ∧ deadline t ≤ now s + debounceDelay)
  ∧ (mounted s = true → timers s = [] → debouncedSearchKey s = searchKey s).

(** Scenario data of the specification. *)
Definition redShoe : Product := mkProduct "1" "Red Shoe" 10%float "a".
Definition blueHat : Product := mkProduct "2" "Blue Hat" 5%float "b".

(** The status automaton as the specification words it: along every
    run of the component, each event moves the status of each id
    forward only. *)
Definition statusForwardOnly (toLowerCase : string → string) : Prop :=
  ∀ t0 es e id,
    forwardOnly
      (status (imageLoading (run toLowerCase (mount t0).1 es).1) id)
      (status (imageLoading
         (step toLowerCase (run toLowerCase (mount t0).1 es).1 e).1) id).

(** The card of the red shoe is shown and its image loads; the query
    "hat" takes the card off the page and the empty query brings it
    back, with a fresh image element. *)
Definition redShoeShownAgain : list Event :=
  [FetchSettled (FetchResponse 200 (inr [redShoe; blueHat]));
   ImageLoad "1";
   Change "hat"; Elapse 300;
   Change ""; Elapse 300].

(** ** Substring search *)

Lemma append_cons c (s t : string) : String c s +:+ t = String c (s +:+ t).
Proof. reflexivity. Qed.

Lemma append_empty (t : string) : EmptyString +:+ t = t.
Proof. reflexivity. Qed.

Lemma prefix_append (t s : string) :
  String.prefix t s = true ↔ ∃ post, s = t +:+ post.
Proof.
  revert s; induction t as [|c t IH]; intros s.
  - split; [intros _; by exists s | by destruct s].
  - destruct s as [|d s]; simpl.
    + split; [done | intros [post Hp]; discriminate].
    + setoid_rewrite append_cons.
      destruct (Ascii.ascii_dec c d) as [->|Hne].
      * rewrite IH. split; intros [post Hp]; exists post; congruence.
      * split; [done | intros [post Hp]; congruence].
Qed.

Lemma includes_nil (t : string) :
  includes EmptyString t = String.prefix t EmptyString.
Proof. simpl. apply orb_false_r. Qed.

Lemma includes_cons c (s t : string) :
  includes (String c s) t = String.prefix t (String c s) || includes s t.
Proof. reflexivity. Qed.

Lemma includes_substring_of (s t : string) :
  includes s t = true ↔ substring_of t s.
Proof.
  unfold substring_of. induction s as [|c s IH].
  - rewrite includes_nil, prefix_append. split.
    + intros [post Hp]. by exists EmptyString, post.
    + intros [pre [post Hp]]. destruct pre; [by exists post|discriminate].
  - rewrite includes_cons, orb_true_iff, prefix_append, IH. split.
    + intros [[post Hp]|[pre [post Hp]]].
      * by exists EmptyString, post.
      * exists (String c pre), post. by rewrite append_cons, Hp.
    + intros [pre [post Hp]]. destruct pre as [|d pre].
      * left. by exists post.
      * right. exists pre, post. rewrite append_cons in Hp. congruence.
Qed.

Lemma includes_empty (s : string) : includes s EmptyString = true.
Proof. destruct s; reflexivity. Qed.

Lemma filter_selected {A} (f : A → bool) (l : list A) :
  selected (λ x, f x = true) l (List.filter f l).
Proof.
  induction l as [|x l IH]; simpl; [constructor|].
  destruct (f x) eqn:Hfx.
  - by apply selected_keep.
  - apply selected_drop; [congruence | done].
Qed.

Lemma selected_iff {A} (P Q : A → Prop) (l k : list A) :
  (∀ x, P x ↔ Q x) → selected P l k → selected Q l k.
Proof.
  intros HPQ; induction 1; constructor; try done; by rewrite <- HPQ.
Qed.

(** A selection is determined by the list and the predicate. *)
Lemma selected_unique {A} (P : A → Prop) (l k k' : list A) :
  selected P l k → selected P l k' → k = k'.
Proof.
  intros H; revert k'.
  induction H as [|x l k Hx _ IH|x l k Hx _ IH]; intros k' Hk';
    inversion Hk'; subst; try done.
  - f_equal. by apply IH.
  - by apply IH.
Qed.

Lemma selected_sublist {A} (P : A → Prop) (l k : list A) :
  selected P l k → sublist k l.
Proof. induction 1; by constructor. Qed.

Lemma selected_elem_of {A} (P : A → Prop) (l k : list A) x :
  selected P l k → x ∈ k ↔ x ∈ l ∧ P x.
Proof.
  induction 1 as [|y l k Hy _ IH|y l k Hy _ IH].
  - split; [by intros ?%elem_of_nil | by intros [?%elem_of_nil _]].
  - rewrite !elem_of_cons, IH. intuition (subst; auto).
  - rewrite elem_of_cons, IH. intuition (subst; tauto).
Qed.

Section FilterFacts.
Variable toLowerCase : string → string.

Lemma matchesQuery_name_contains q p :
  matchesQuery toLowerCase q p = true ↔ name_contains toLowerCase q p.
Proof. apply includes_substring_of. Qed.

(** C1: for every product list and every debounced query,
    [filteredProducts] is the subsequence of the products whose
    lower-cased name contains the lower-cased query as a substring:
    it is the selection of the list by that condition (one walk over
    the list, keeping a product exactly when it matches), it is the
    only such selection, it is a sublist of the input in the input's
    order, and its members are the matching members of the input. *)
Theorem filteredProducts_matching_subsequence
    (products : list Product) (query : string) :
  selected (name_contains toLowerCase query) products
    (filteredProducts toLowerCase products query)
  ∧ (∀ k, selected (name_contains toLowerCase query) products k →
          k = filteredProducts toLowerCase products query)
  ∧ sublist (filteredProducts toLowerCase products query) products
  ∧ (∀ p, p ∈ filteredProducts toLowerCase products query
          ↔ p ∈ products ∧ name_contains toLowerCase query p).
Proof.
  assert (Hsel : selected (name_contains toLowerCase query) products
                   (filteredProducts toLowerCase products query)).
  { eapply selected_iff; [|apply filter_selected].
    intros p. apply matchesQuery_name_contains. }
  split_and!; [done| |by eapply selected_sublist|].
  - intros k Hk. by eapply selected_unique.
  - intros p. by apply selected_elem_of.
Qed.

(** A query that lower-cases to the empty string keeps every product. *)
Lemma filteredProducts_empty_query (products : list Product) (query : string) :
  toLowerCase query = EmptyString →
  filteredProducts toLowerCase products query = products.
Proof.
  intros Hq. unfold filteredProducts.
  induction products as [|p ps IH]; simpl; [done|].
  unfold matchesQuery at 1. by rewrite Hq, includes_empty, IH.
Qed.
End FilterFacts.

(** ** Image status: handlers *)

Lemma status_handleImageLoad m X : status (handleImageLoad X m) X = loaded.
Proof. unfold status, handleImageLoad. by rewrite lookup_insert_eq. Qed.

Lemma status_handleImageError m X : status (handleImageError X m) X = error.
Proof. unfold status, handleImageError. by rewrite lookup_insert_eq. Qed.

Lemma handleSignal_lookup_ne m g Y :
  signalId g ≠ Y → handleSignal m g !! Y = m !! Y.
Proof.
  destruct g; simpl; intros Hne;
    unfold handleImageLoad, handleImageError; by rewrite lookup_insert_ne.
Qed.

Lemma status_handleSignal m g : status (handleSignal m g) (signalId g) = signalStatus g.
Proof.
  destruct g; simpl; [apply status_handleImageLoad | apply status_handleImageError].
Qed.

Lemma status_handleSignal_ne m g Y :
  signalId g ≠ Y → status (handleSignal m g) Y = status m Y.
Proof. intros Hne. unfold status. by rewrite handleSignal_lookup_ne. Qed.

Lemma status_foldl_others m (gs : list Signal) Y :
  Forall (λ h, signalId h ≠ Y) gs →
  status (foldl handleSignal m gs) Y = status m Y.
Proof.
  intros Hgs; revert m; induction Hgs as [|g gs Hg _ IH]; intros m; simpl; [done|].
  by rewrite IH, status_handleSignal_ne.
Qed.

Lemma handleSignal_is_Some m g Y :
  is_Some (m !! Y) → is_Some (handleSignal m g !! Y).
Proof.
  intros Hm. destruct (decide (signalId g = Y)) as [<-|Hne].
  - destruct g; simpl; unfold handleImageLoad, handleImageError;
      rewrite lookup_insert_eq; eauto.
  - by rewrite handleSignal_lookup_ne.
Qed.

(** ** Rendering *)

Lemma renderCard_shows m prod :
  shows (renderKind (status m (productId prod))) (renderCard m prod).
Proof.
  unfold status, renderCard, strictEq; simpl.
  destruct (m !! productId prod) as [[[|]|]|]; simpl; by split.
Qed.

Lemma shows_unique k k' c : shows k c → shows k' c → k = k'.
Proof.
  destruct k, k'; simpl; intros [H1 H2] [H3 H4]; congruence.
Qed.

Lemma renderCard_status_eq m m' prod :
  status m' (productId prod) = status m (productId prod) →
  renderCard m' prod = renderCard m prod.
Proof.
  unfold status, renderCard, strictEq.
  destruct (m !! productId prod) as [[[|]|]|],
           (m' !! productId prod) as [[[|]|]|]; simpl; by (discriminate || intros _).
Qed.

(** ** Steps of the component *)

#[local] Arguments elapse : simpl never.
#[local] Arguments settleFetch : simpl never.
#[local] Arguments handleSearchChange : simpl never.

Lemma foldl_fire_fields s due :
  let s' := foldl fire s due in
  mounted s' = mounted s ∧ products s' = products s ∧ searchKey s' = searchKey s
  ∧ imageLoading s' = imageLoading s ∧ handler s' = handler s ∧ now s' = now s
  ∧ timers s' = timers s ∧ nextTimerId s' = nextTimerId s
  ∧ fetchInFlight s' = fetchInFlight s
  ∧ debouncedSearchKey s' = default (debouncedSearchKey s) (captured <$> last due).
Proof.
  revert s; induction due as [|t due IH]; intros s; simpl; [done|].
  destruct (IH (fire s t)) as (?&?&?&?&?&?&?&?&?&Hd). split_and!; try done.
  rewrite Hd, last_cons. by destruct (last due).
Qed.

Section Steps.
Variable toLowerCase : string → string.
Abbreviation step := (step toLowerCase).
Abbreviation run := (run toLowerCase).

Lemma run_app s es1 es2 :
  run s (es1 ++ es2) =
  ((run (run s es1).1 es2).1, ((run s es1).2 ++ (run (run s es1).1 es2).2)%list).
Proof.
  revert s; induction es1 as [|e es1 IH]; intros s; simpl.
  - by destruct (run s es2).
  - destruct (step s e) as [s1 a1]. rewrite IH.
    destruct (run s1 es1) as [s2 a2]; simpl.
    destruct (run s2 es2) as [s3 a3]; simpl. by rewrite app_assoc.
Qed.

Lemma run_cons s e es :
  run s (e :: es) =
  ((run (step s e).1 es).1, ((step s e).2 ++ (run (step s e).1 es).2)%list).
Proof. simpl. destruct (step s e) as [s1 a1]; simpl. by destruct (run s1 es). Qed.

Lemma run_snoc s es e :
  (run s (es ++ [e])).1 = (step (run s es).1 e).1.
Proof.
  rewrite run_app; simpl. by destruct (step (run s es).1 e).
Qed.

(** What one event can do to the image status map. *)
Lemma step_imageLoading s e :
  imageLoading (step s e).1 = imageLoading s
  ∨ (∃ id, e = ImageLoad id
       ∧ imageLoading (step s e).1 = handleImageLoad id (imageLoading s))
  ∨ (∃ id, e = ImageError id
       ∧ imageLoading (step s e).1 = handleImageError id (imageLoading s)).
Proof.
  destruct e as [v|id|id|o|ms|]; simpl.
  - left. destruct (mounted s); [|done]. unfold handleSearchChange.
    case_bool_decide; [done|]. simpl. by destruct (handler s).
  - destruct (mounted s && displayed toLowerCase id s); [|by left].
    right; left. by exists id.
  - destruct (mounted s && displayed toLowerCase id s); [|by left].
    right; right. by exists id.
  - left. destruct (fetchInFlight s); [|done].
    unfold settleFetch. by destruct (fetchProducts o).
  - left. apply (foldl_fire_fields s).
  - left. destruct (mounted s); [|done]. simpl. unfold debounceCleanup.
    by destruct (handler s).
Qed.

Lemma step_imageLoading_signal s e :
  imageLoading (step s e).1 = imageLoading s
  ∨ ∃ g, (e = ImageLoad (signalId g) ∨ e = ImageError (signalId g))
       ∧ imageLoading (step s e).1 = handleSignal (imageLoading s) g.
Proof.
  destruct (step_imageLoading s e) as [H|[[id [-> H]]|[id [-> H]]]]; [by left|..];
    right; [exists (LoadSignal id)|exists (ErrorSignal id)]; simpl; auto.
Qed.

Lemma step_is_Some s e Y :
  is_Some (imageLoading s !! Y) → is_Some (imageLoading (step s e).1 !! Y).
Proof.
  intros HY. destruct (step_imageLoading_signal s e) as [->|[g [_ ->]]]; [done|].
  by apply handleSignal_is_Some.
Qed.

Lemma run_is_Some s es Y :
  is_Some (imageLoading s !! Y) → is_Some (imageLoading (run s es).1 !! Y).
Proof.
  revert s; induction es as [|e es IH]; intros s HY; [done|].
  rewrite run_cons; simpl. by apply IH, step_is_Some.
Qed.

Lemma step_status_settled s e id :
  status (imageLoading s) id ≠ pending →
  status (imageLoading (step s e).1) id ≠ pending.
Proof.
  intros Hs. destruct (step_imageLoading_signal s e) as [->|[g [_ ->]]]; [done|].
  destruct (decide (signalId g = id)) as [<-|Hne].
  - rewrite status_handleSignal. by destruct g.
  - by rewrite status_handleSignal_ne.
Qed.

Lemma run_status_settled s es id :
  status (imageLoading s) id ≠ pending →
  status (imageLoading (run s es).1) id ≠ pending.
Proof.
  revert s; induction es as [|e es IH]; intros s Hs; [done|].
  rewrite run_cons; simpl. by apply IH, step_status_settled.
Qed.
End Steps.

(** ** Image status tracker: rendering, signals, frame *)

(** C5: the card rendered for a product is a function of the status of
    its id.  Pending (no entry in the map, or any entry other than
    [false] and ["error"]) shows the spinner placeholder with the image
    hidden; error shows the text "Image not available" with the image
    hidden; loaded renders no placeholder and shows the image.  Two maps
    giving the id the same status render the same card. *)
Theorem renderCard_by_status (m : ImageLoadingState) (prod : Product) :
  shows (renderKind (status m (productId prod))) (renderCard m prod)
  ∧ (m !! productId prod = None → shows PendingRender (renderCard m prod))
  ∧ (status m (productId prod) = pending → shows PendingRender (renderCard m prod))
  ∧ (status m (productId prod) = error → shows ErrorRender (renderCard m prod))
  ∧ (status m (productId prod) = loaded → shows LoadedRender (renderCard m prod))
  ∧ (∀ m', status m' (productId prod) = status m (productId prod) →
           renderCard m' prod = renderCard m prod).
Proof.
  pose proof (renderCard_shows m prod) as Hshow.
  split_and!; [done|..].
  - intros Hnone. unfold status in Hshow. by rewrite Hnone in Hshow.
  - intros Hst. by rewrite Hst in Hshow.
  - intros Hst. by rewrite Hst in Hshow.
  - intros Hst. by rewrite Hst in Hshow.
  - intros m'. apply renderCard_status_eq.
Qed.

Lemma renderCard_by_status_witness :
  (∅ : ImageLoadingState) !! productId blueHat = None
  ∧ shows PendingRender (renderCard ∅ blueHat)
  ∧ status (handleImageError "2" ∅) (productId blueHat) = error
  ∧ shows ErrorRender (renderCard (handleImageError "2" ∅) blueHat)
  ∧ status (handleImageLoad "2" ∅) (productId blueHat) = loaded
  ∧ shows LoadedRender (renderCard (handleImageLoad "2" ∅) blueHat).
Proof.
  split_and!.
  - reflexivity.
  - apply (renderCard_by_status ∅ blueHat). reflexivity.
  - reflexivity.
  - apply (renderCard_by_status (handleImageError "2" ∅) blueHat). reflexivity.
  - reflexivity.
  - apply (renderCard_by_status (handleImageLoad "2" ∅) blueHat). reflexivity.
Defined.

(** C4: a loaded signal for id X sets the status of X to loaded and an
    error signal sets it to error, whatever the status was before; when
    both arrive the later one decides, so an error after a loaded leaves
    error (and a loaded after an error leaves loaded).  In any sequence
    of signals the status of X is the one of the last signal for X.  A
    delivered image event applies exactly these updates to the state. *)
Theorem image_signal_last_writer_wins (m : ImageLoadingState) (X : string) :
  status (handleImageLoad X m) X = loaded
  ∧ status (handleImageError X m) X = error
  ∧ status (handleImageError X (handleImageLoad X m)) X = error
  ∧ status (handleImageLoad X (handleImageError X m)) X = loaded
  ∧ (∀ (earlier later : list Signal) (g : Signal),
       signalId g = X → Forall (λ h, signalId h ≠ X) later →
       status (foldl handleSignal m (earlier ++ g :: later)) X = signalStatus g)
  ∧ (∀ toLowerCase s, mounted s = true → displayed toLowerCase X s = true →
       imageLoading (step toLowerCase s (ImageLoad X)).1
         = handleImageLoad X (imageLoading s)
       ∧ imageLoading (step toLowerCase s (ImageError X)).1
         = handleImageError X (imageLoading s)).
Proof.
  split_and!.
  - apply status_handleImageLoad.
  - apply status_handleImageError.
  - apply status_handleImageError.
  - apply status_handleImageLoad.
  - intros earlier later g <- Hlater.
    rewrite foldl_app; simpl.
    rewrite status_foldl_others by done. apply status_handleSignal.
  - intros toLowerCase s Hm Hd; simpl. by rewrite Hm, Hd.
Qed.

Lemma image_signal_last_writer_wins_witness :
  signalId (ErrorSignal "2") = "2"
  ∧ Forall (λ h, signalId h ≠ "2") [LoadSignal "1"]
  ∧ status (foldl handleSignal ∅
              ([LoadSignal "2"] ++ ErrorSignal "2" :: [LoadSignal "1"])) "2" = error.
Proof.
  split_and!.
  - reflexivity.
  - repeat constructor. discriminate.
  - apply (image_signal_last_writer_wins ∅ "2").
    + reflexivity.
    + repeat constructor. discriminate.
Defined.

(** C9: handling a load or an error signal for id X changes at most the
    entry of X: the entry of every other id is what it was.  No event of
    the component removes an entry: an id present in the map stays
    present after any sequence of events. *)
Theorem image_signal_frame (toLowerCase : string → string) (s : State) (X : string) :
  (∀ m Y, Y ≠ X →
     handleImageLoad X m !! Y = m !! Y ∧ handleImageError X m !! Y = m !! Y)
  ∧ (∀ e Y, e = ImageLoad X ∨ e = ImageError X → Y ≠ X →
       imageLoading (step toLowerCase s e).1 !! Y = imageLoading s !! Y)
  ∧ (∀ es Y, is_Some (imageLoading s !! Y) →
       is_Some (imageLoading (run toLowerCase s es).1 !! Y)).
Proof.
  split_and!.
  - intros m Y HY. unfold handleImageLoad, handleImageError.
    by rewrite !lookup_insert_ne.
  - intros e Y He HY.
    destruct (step_imageLoading_signal toLowerCase s e) as [->|[g [Hg ->]]]; [done|].
    apply handleSignal_lookup_ne.
    destruct He as [->| ->], Hg as [Hg|Hg]; congruence.
  - intros es Y. apply run_is_Some.
Qed.

Lemma image_signal_frame_witness :
  let s := (run asciiToLowerCase (mount 0).1
              [FetchSettled (FetchResponse 200 (inr [redShoe; blueHat]));
               ImageLoad "1"]).1 in
  "1" ≠ "2"
  ∧ imageLoading (step asciiToLowerCase s (ImageError "2")).1 !! "1"
    = imageLoading s !! "1"
  ∧ is_Some (imageLoading s !! "1")
  ∧ is_Some (imageLoading
      (run asciiToLowerCase s [ImageError "2"; Change "hat"; Elapse 300; Unmount]).1
      !! "1").
Proof.
  intros s.
  assert (Hne : "1" ≠ "2") by discriminate.
  assert (Hs : is_Some (imageLoading s !! "1")) by (vm_compute; eauto).
  split_and!; [done| |done|].
  - apply (image_signal_frame asciiToLowerCase s "2"); [by right|done].
  - by apply (image_signal_frame asciiToLowerCase s "2").
Defined.

Lemma step_status_moves toLowerCase s e id :
  status (imageLoading (step toLowerCase s e).1) id = status (imageLoading s) id
  ∨ (e = ImageLoad id ∧ status (imageLoading (step toLowerCase s e).1) id = loaded)
  ∨ (e = ImageError id ∧ status (imageLoading (step toLowerCase s e).1) id = error).
Proof.
  destruct (step_imageLoading toLowerCase s e)
    as [->|[[i [-> ->]]|[i [-> ->]]]]; [by left|..];
    (destruct (decide (i = id)) as [->|Hne];
     [right|left; unfold status, handleImageLoad, handleImageError;
            by rewrite lookup_insert_ne]).
  - left. split; [done|apply status_handleImageLoad].
  - right. split; [done|apply status_handleImageError].
Qed.

(** C3, as stated, fails: the status of an id can move from loaded to
    error.  The image of the red shoe loads; the card leaves the page
    and comes back, and the new image element raises an error: the
    status of "1" goes from loaded to error. *)
Lemma status_loaded_then_error : ¬ statusForwardOnly asciiToLowerCase.
Proof.
  intros Hfwd.
  specialize (Hfwd 0 redShoeShownAgain (ImageError "1") "1").
  vm_compute in Hfwd.
  destruct Hfwd as [Hfwd|[Hfwd _]]; discriminate.
Qed.

(** C3, amended: for every product id, an event leaves the status as it
    is, or is a load signal for that id and makes it loaded, or is an
    error signal for that id and makes it error; a status that has left
    pending never returns to pending, along any sequence of events;
    and at every moment each card, on the page or not, shows exactly one
    of the pending, error and loaded renders. *)
Theorem image_status_never_back_to_pending
    (toLowerCase : string → string) (s : State) (id : string) :
  (∀ e,
     status (imageLoading (step toLowerCase s e).1) id = status (imageLoading s) id
     ∨ (e = ImageLoad id
        ∧ status (imageLoading (step toLowerCase s e).1) id = loaded)
     ∨ (e = ImageError id
        ∧ status (imageLoading (step toLowerCase s e).1) id = error))
  ∧ (∀ es, status (imageLoading s) id ≠ pending →
           status (imageLoading (run toLowerCase s es).1) id ≠ pending)
  ∧ (∀ prod, ∃ k, shows k (renderCard (imageLoading s) prod)
                  ∧ ∀ k', shows k' (renderCard (imageLoading s) prod) → k' = k)
  ∧ (∀ c, c ∈ cards (render toLowerCase s) →
          ∃ k, shows k c ∧ ∀ k', shows k' c → k' = k).
Proof.
  assert (Hone : ∀ prod, ∃ k, shows k (renderCard (imageLoading s) prod)
                   ∧ ∀ k', shows k' (renderCard (imageLoading s) prod) → k' = k).
  { intros prod. eexists; split; [apply renderCard_shows|].
    intros k' Hk'. eapply shows_unique; [done|apply renderCard_shows]. }
  split_and!; [| |done|].
  - intros e. apply step_status_moves.
  - intros es. apply run_status_settled.
  - intros c [prod [-> _]]%list_elem_of_fmap. apply Hone.
Qed.

Lemma image_status_never_back_to_pending_witness :
  status (imageLoading (run asciiToLowerCase (mount 0).1 redShoeShownAgain).1) "1"
    ≠ pending
  ∧ status (imageLoading
      (run asciiToLowerCase
         (run asciiToLowerCase (mount 0).1 redShoeShownAgain).1
         [ImageError "1"; Change "shoe"; Elapse 400; ImageLoad "1"]).1) "1"
    ≠ pending.
Proof.
  assert (H0 : status (imageLoading
                 (run asciiToLowerCase (mount 0).1 redShoeShownAgain).1) "1"
               ≠ pending) by (vm_compute; discriminate).
  split; [done|].
  by apply (image_status_never_back_to_pending asciiToLowerCase
              (run asciiToLowerCase (mount 0).1 redShoeShownAgain).1 "1").
Defined.

(** ** The debounce timer *)

Lemma clearTimeout_subseteq id ts t : t ∈ clearTimeout id ts → t ∈ ts.
Proof.
  unfold clearTimeout. rewrite !list_elem_of_In, filter_In. by intros [? _].
Qed.

Lemma clearTimeout_owned id ts :
  (∀ t, t ∈ ts → timerId t = id) → clearTimeout id ts = [].
Proof.
  induction ts as [|t ts IH]; intros Hown; simpl; [done|].
  rewrite (Hown t) by apply list_elem_of_here. rewrite Nat.eqb_refl; simpl.
  apply IH. intros t' Ht'. apply Hown. by apply list_elem_of_further.
Qed.

Lemma debounceCleanup_owned s :
  timersOwned s → timers (debounceCleanup s) = [].
Proof.
  intros [Hown _]. unfold debounceCleanup.
  destruct (handler s) as [id|] eqn:Hh; simpl.
  - apply clearTimeout_owned. intros t Ht. specialize (Hown t Ht). congruence.
  - destruct (timers s) as [|t ts]; [done|].
    specialize (Hown t (list_elem_of_here _ _)). congruence.
Qed.

Lemma debounceCleanup_fields s :
  let s' := debounceCleanup s in
  mounted s' = mounted s ∧ products s' = products s ∧ searchKey s' = searchKey s
  ∧ debouncedSearchKey s' = debouncedSearchKey s
  ∧ imageLoading s' = imageLoading s ∧ now s' = now s
  ∧ nextTimerId s' = nextTimerId s ∧ fetchInFlight s' = fetchInFlight s
  ∧ (∀ t, t ∈ timers s' → t ∈ timers s).
Proof.
  unfold debounceCleanup. destruct (handler s); simpl; split_and!; try done.
  apply clearTimeout_subseteq.
Qed.

(** A change of the raw query cancels whatever was pending and leaves
    exactly one timer, due 300 ms from now, carrying the new value. *)
Lemma handleSearchChange_rearms s v :
  timersOwned s → v ≠ searchKey s →
  handleSearchChange v s =
  mkState (mounted s) (products s) v (debouncedSearchKey s) (imageLoading s)
    (Some (nextTimerId s)) (now s)
    [mkTimer (nextTimerId s) (now s + debounceDelay) v]
    (S (nextTimerId s)) (fetchInFlight s).
Proof.
  intros Hown Hv. unfold handleSearchChange.
  rewrite bool_decide_eq_false_2 by done.
  set (s1 := mkState _ _ v _ _ _ _ _ _ _).
  assert (Hown1 : timersOwned s1) by done.
  pose proof (debounceCleanup_owned s1 Hown1) as Hts.
  destruct (debounceCleanup_fields s1) as (?&?&?&?&?&?&?&?&_).
  unfold debounceEffect. rewrite Hts. subst s1; simpl in *. f_equal; congruence.
Qed.

Lemma elapse_fields ms s :
  let s' := (elapse ms s).1 in
  mounted s' = mounted s ∧ products s' = products s ∧ searchKey s' = searchKey s
  ∧ imageLoading s' = imageLoading s ∧ handler s' = handler s
  ∧ now s' = now s + ms ∧ nextTimerId s' = nextTimerId s
  ∧ fetchInFlight s' = fetchInFlight s
  ∧ (∀ t, t ∈ timers s' → t ∈ timers s).
Proof.
  unfold elapse; simpl.
  destruct (foldl_fire_fields s
    (List.filter (λ t, Nat.leb (deadline t) (now s + ms)) (timers s)))
    as (?&?&?&?&?&?&?&?&?&_).
  split_and!; try done.
  intros t. rewrite !list_elem_of_In, filter_In. by intros [? _].
Qed.

Section TimerInvariant.
Variable toLowerCase : string → string.
Abbreviation step := (step toLowerCase).
Abbreviation run := (run toLowerCase).

Lemma mount_timersOwned t0 : timersOwned (mount t0).1.
Proof.
  split; [|done]. simpl. by intros t ->%list_elem_of_singleton.
Qed.

Lemma step_timersOwned s e : timersOwned s → timersOwned (step s e).1.
Proof.
  intros Hown.
  destruct e as [v|id|id|o|ms|];
    [simpl|simpl|simpl|simpl|change (timersOwned (elapse ms s).1)|simpl].
  - destruct (mounted s) eqn:Hm; [|done]. simpl.
    destruct (decide (v = searchKey s)) as [Hv|Hv].
    + unfold handleSearchChange. by rewrite bool_decide_eq_true_2.
    + rewrite handleSearchChange_rearms by done.
      split; simpl; [|congruence]. by intros t ->%list_elem_of_singleton.
  - by destruct (mounted s && displayed toLowerCase id s).
  - by destruct (mounted s && displayed toLowerCase id s).
  - destruct (fetchInFlight s); [|done].
    unfold settleFetch. by destruct (fetchProducts o).
  - destruct Hown as [Hown Hun].
    destruct (elapse_fields ms s) as (Hm&_&_&_&Hh&_&_&_&Hts).
    set (s' := (elapse ms s).1) in *. clearbody s'.
    split.
    + intros t Ht. rewrite Hh. by apply Hown, Hts.
    + rewrite Hm. intros Hf. specialize (Hun Hf).
      destruct (timers s') as [|t ts] eqn:Hts'; [done|].
      specialize (Hts t (list_elem_of_here _ _)). rewrite Hun in Hts.
      by apply elem_of_nil in Hts.
  - destruct (mounted s) eqn:Hm; [|done].
    pose proof (debounceCleanup_owned s Hown) as Hts. split.
    + intros t Ht. change (t ∈ timers (debounceCleanup s)) in Ht.
      rewrite Hts in Ht. by apply elem_of_nil in Ht.
    + intros _. exact Hts.
Qed.

Lemma run_timersOwned s es : timersOwned s → timersOwned (run s es).1.
Proof.
  revert s; induction es as [|e es IH]; intros s Hown; [done|].
  rewrite run_cons; simpl. by apply IH, step_timersOwned.
Qed.

Lemma reachable_timersOwned s : reachable toLowerCase s → timersOwned s.
Proof.
  intros [t0 [es ->]]. apply run_timersOwned, mount_timersOwned.
Qed.

(** Nothing happens to the debounced value of a torn-down component
    whose timers are gone. *)
Lemma step_torn_down s e :
  mounted s = false → timers s = [] →
  mounted (step s e).1 = false ∧ timers (step s e).1 = []
  ∧ debouncedSearchKey (step s e).1 = debouncedSearchKey s
  ∧ emissions (step s e).2 = [].
Proof.
  intros Hm Hts. destruct e as [v|id|id|o|ms|]; simpl; rewrite ?Hm; simpl; try done.
  - destruct (fetchInFlight s); [|done].
    unfold settleFetch. by destruct (fetchProducts o).
  - unfold elapse. by rewrite Hts.
Qed.

Lemma run_torn_down s es :
  mounted s = false → timers s = [] →
  debouncedSearchKey (run s es).1 = debouncedSearchKey s
  ∧ emissions (run s es).2 = [].
Proof.
  revert s; induction es as [|e es IH]; intros s Hm Hts; [done|].
  rewrite run_cons; simpl.
  destruct (step_torn_down s e Hm Hts) as (Hm'&Hts'&Hd&He).
  destruct (IH _ Hm' Hts') as [IHd IHe].
  split; [congruence|].
  unfold emissions in *. by rewrite omap_app, He, IHe.
Qed.
End TimerInvariant.

Lemma elapse_single_early m p k d a h (n : nat) id (dl : nat) v nx f (ms : nat) :
  n + ms < dl →
  elapse ms (mkState m p k d a h n [mkTimer id dl v] nx f)
  = (mkState m p k d a h (n + ms) [mkTimer id dl v] nx f, []).
Proof.
  intros Hlt. unfold elapse; simpl.
  by rewrite (proj2 (Nat.leb_gt dl (n + ms))) by lia.
Qed.

Lemma elapse_single_due m p k d a h (n : nat) id (dl : nat) v nx f (ms : nat) :
  dl ≤ n + ms →
  elapse ms (mkState m p k d a h n [mkTimer id dl v] nx f)
  = (mkState m p k v a h (n + ms) [] nx f, [SetDebouncedSearchKey dl v]).
Proof.
  intros Hle. unfold elapse; simpl.
  by rewrite (proj2 (Nat.leb_le dl (n + ms))) by lia.
Qed.

Section Debounce.
Variable toLowerCase : string → string.
Abbreviation step := (step toLowerCase).
Abbreviation run := (run toLowerCase).

Lemma step_Change s v :
  mounted s = true → step s (Change v) = (handleSearchChange v s, []).
Proof. intros Hm; simpl. by rewrite Hm. Qed.

Lemma step_Elapse s ms : step s (Elapse ms) = elapse ms s.
Proof. reflexivity. Qed.

(** One keystroke followed by less than the quiet interval: the timer
    is re-armed and nothing is emitted. *)
Lemma keystroke_then_short_gap s v (gap : nat) :
  timersOwned s → mounted s = true → v ≠ searchKey s → gap < debounceDelay →
  run s [Change v; Elapse gap]
  = (mkState true (products s) v (debouncedSearchKey s) (imageLoading s)
       (Some (nextTimerId s)) (now s + gap)
       [mkTimer (nextTimerId s) (now s + debounceDelay) v]
       (S (nextTimerId s)) (fetchInFlight s), []).
Proof.
  intros Hown Hm Hv Hgap.
  rewrite run_cons, step_Change by done. cbn [fst snd].
  rewrite handleSearchChange_rearms by done.
  rewrite run_cons, step_Elapse, elapse_single_early by lia.
  by rewrite Hm.
Qed.

(** One keystroke followed by at least the quiet interval: the timer
    fires once, 300 ms after the keystroke, with the value entered. *)
Lemma keystroke_then_quiet s v (quiet : nat) :
  timersOwned s → mounted s = true → v ≠ searchKey s → debounceDelay ≤ quiet →
  run s [Change v; Elapse quiet]
  = (mkState true (products s) v v (imageLoading s)
       (Some (nextTimerId s)) (now s + quiet) []
       (S (nextTimerId s)) (fetchInFlight s),
     [SetDebouncedSearchKey (now s + debounceDelay) v]).
Proof.
  intros Hown Hm Hv Hq.
  rewrite run_cons, step_Change by done. cbn [fst snd].
  rewrite handleSearchChange_rearms by done.
  rewrite run_cons, step_Elapse, elapse_single_due by lia.
  by rewrite Hm.
Qed.

Lemma keystrokes_cons v gap b :
  keystrokes ((v, gap) :: b) = ([Change v; Elapse gap] ++ keystrokes b)%list.
Proof. reflexivity. Qed.

Lemma keystrokes_app b1 b2 :
  keystrokes (b1 ++ b2) = (keystrokes b1 ++ keystrokes b2)%list.
Proof.
  induction b1 as [|[v gap] b1 IH]; simpl; [done|]. by rewrite IH.
Qed.

(** A burst of changes, each followed by less than the quiet interval,
    emits nothing and leaves the debounced value alone. *)
Lemma burst_is_silent b s :
  timersOwned s → mounted s = true →
  changes (searchKey s) b.*1 →
  Forall (λ p, p.2 < debounceDelay) b →
  let r := run s (keystrokes b) in
  r.2 = [] ∧ timersOwned r.1 ∧ mounted r.1 = true
  ∧ searchKey r.1 = default (searchKey s) (last b.*1)
  ∧ debouncedSearchKey r.1 = debouncedSearchKey s
  ∧ now r.1 = now s + sum_list b.*2.
Proof.
  revert s; induction b as [|[v gap] b IH]; intros s Hown Hm Hch Hgaps.
  - simpl. split_and!; try done; lia.
  - destruct Hch as [Hv Hch]. apply Forall_cons in Hgaps as [Hgap Hgaps].
    simpl in Hgap. rewrite keystrokes_cons, run_app.
    pose proof (run_timersOwned toLowerCase s [Change v; Elapse gap] Hown) as Hown1.
    rewrite keystroke_then_short_gap in * by done.
    set (s1 := mkState _ _ _ _ _ _ _ _ _ _) in *.
    destruct (IH s1 Hown1 eq_refl Hch Hgaps) as (Ha&Hown2&Hm2&Hk2&Hd2&Hn2).
    cbn [fst snd]. split_and!; try done.
    + rewrite Hk2, fmap_cons, last_cons. simpl. by destruct (last b.*1).
    + rewrite Hn2. subst s1. simpl. unfold fmap. lia.
Qed.

(** C2: starting from any state the mounted component can be in, take
    any sequence of changes of the raw query (each value different from
    the one before), each arriving less than 300 ms after the previous
    one, and let at least 300 ms pass after the last.  Then the
    debounced value is set exactly once during the whole sequence, 300
    ms after the last change, and it ends equal to the last raw value
    entered. *)
Theorem debounce_settles_on_last_value
    (s : State) (b : list (string * nat)) (v : string) (quiet : nat) :
  reachable toLowerCase s → mounted s = true →
  changes (searchKey s) (b.*1 ++ [v]) →
  Forall (λ p, p.2 < debounceDelay) b →
  debounceDelay ≤ quiet →
  debouncedSearchKey (run s (keystrokes (b ++ [(v, quiet)]))).1 = v
  ∧ searchKey (run s (keystrokes (b ++ [(v, quiet)]))).1 = v
  ∧ emissions (run s (keystrokes (b ++ [(v, quiet)]))).2
    = [(now s + sum_list b.*2 + debounceDelay, v)].
Proof.
  intros Hreach Hm Hch Hgaps Hq.
  apply reachable_timersOwned in Hreach.
  assert (Hch1 : changes (searchKey s) b.*1
                 ∧ v ≠ default (searchKey s) (last b.*1)).
  { clear -Hch. revert Hch. generalize (searchKey s) as k.
    induction b as [|[w g] b IH]; intros k Hch.
    - by destruct Hch.
    - destruct Hch as [Hw Hch]. destruct (IH w Hch) as [H1 H2].
      split; [done|]. rewrite fmap_cons, last_cons. simpl in *.
      by destruct (last b.*1). }
  destruct Hch1 as [Hch1 Hlast].
  destruct (burst_is_silent b s Hreach Hm Hch1 Hgaps) as (Ha&Hown&Hm1&Hk&Hd&Hn).
  rewrite keystrokes_app, run_app. rewrite Ha.
  change (keystrokes [(v, quiet)]) with [Change v; Elapse quiet].
  rewrite keystroke_then_quiet by (done || congruence).
  cbn [fst snd]. rewrite Hn. by split_and!.
Qed.

End Debounce.

(** The scenario of the specification: "r", "re", "red" typed 100 ms
    apart, then a pause. *)
Lemma debounce_settles_on_last_value_witness :
  mounted (mount 0).1 = true
  ∧ changes (searchKey (mount 0).1) ([("r", 100); ("re", 100)].*1 ++ ["red"])
  ∧ Forall (λ p : string * nat, p.2 < debounceDelay) [("r", 100); ("re", 100)]
  ∧ debounceDelay ≤ 300
  ∧ debouncedSearchKey
      (run asciiToLowerCase (mount 0).1
         (keystrokes ([("r", 100); ("re", 100)] ++ [("red", 300)]))).1
    = "red"
  ∧ emissions
      (run asciiToLowerCase (mount 0).1
         (keystrokes ([("r", 100); ("re", 100)] ++ [("red", 300)]))).2
    = [(500, "red")].
Proof.
  assert (Hch : changes (searchKey (mount 0).1)
                  ([("r", 100); ("re", 100)].*1 ++ ["red"]))
    by (simpl; split_and!; done).
  assert (Hgaps : Forall (λ p : string * nat, p.2 < debounceDelay)
                    [("r", 100); ("re", 100)])
    by (repeat constructor; simpl; unfold debounceDelay; lia).
  assert (Hq : debounceDelay ≤ 300) by (unfold debounceDelay; lia).
  destruct (debounce_settles_on_last_value asciiToLowerCase (mount 0).1
              [("r", 100); ("re", 100)] "red" 300) as (Hd&_&He);
    [by exists 0, []|done|done|done|done|].
  by split_and!.
Defined.

(** C7: tear the component down in any state it can be in, in
    particular while a debounce timer is pending or right after a
    keystroke re-scheduled it: the cleanup leaves no timer behind, so
    whatever happens afterwards, [setDebouncedSearchKey] is never called
    again and the debounced value stays what it was at teardown.
    Re-scheduling itself cancels the previous timer: after a change of
    the raw query exactly one timer is pending. *)
Theorem no_emission_after_teardown
    (toLowerCase : string → string) (s : State) (es : list Event) :
  reachable toLowerCase s → mounted s = true →
  timers (step toLowerCase s Unmount).1 = []
  ∧ emissions (run toLowerCase s (Unmount :: es)).2 = []
  ∧ debouncedSearchKey (run toLowerCase s (Unmount :: es)).1 = debouncedSearchKey s
  ∧ (∀ v, v ≠ searchKey s →
       timers (step toLowerCase s (Change v)).1
       = [mkTimer (nextTimerId s) (now s + debounceDelay) v]
       ∧ timers (step toLowerCase (step toLowerCase s (Change v)).1 Unmount).1 = []).
Proof.
  intros Hown%reachable_timersOwned Hm.
  assert (Hun : ∀ s', timersOwned s' → mounted s' = true →
            (step toLowerCase s' Unmount).2 = []
            ∧ mounted (step toLowerCase s' Unmount).1 = false
            ∧ timers (step toLowerCase s' Unmount).1 = []
            ∧ debouncedSearchKey (step toLowerCase s' Unmount).1
              = debouncedSearchKey s').
  { intros s' Hown' Hm'. simpl. rewrite Hm'. split_and!; try done.
    - apply (debounceCleanup_owned s' Hown').
    - apply (debounceCleanup_fields s'). }
  destruct (Hun s Hown Hm) as (Ha&Hm1&Hts1&Hd1).
  split_and!; [done|..].
  - rewrite run_cons. cbn [snd]. rewrite Ha. simpl.
    by apply run_torn_down.
  - rewrite run_cons. cbn [fst]. rewrite <- Hd1. by apply run_torn_down.
  - intros v Hv.
    pose proof (step_timersOwned toLowerCase s (Change v) Hown) as Hown2.
    rewrite step_Change in * by done. cbn [fst] in *.
    split; [by rewrite handleSearchChange_rearms|].
    apply Hun; [done|]. by rewrite handleSearchChange_rearms.
Qed.

Lemma no_emission_after_teardown_witness :
  mounted (run asciiToLowerCase (mount 0).1 [Change "r"; Elapse 100]).1 = true
  ∧ timers (run asciiToLowerCase (mount 0).1 [Change "r"; Elapse 100]).1
    = [mkTimer 2 300 "r"]
  ∧ emissions
      (run asciiToLowerCase
         (run asciiToLowerCase (mount 0).1 [Change "r"; Elapse 100]).1
         (Unmount :: [Elapse 1000; Change "re"; Elapse 1000])).2 = [].
Proof.
  split_and!; [reflexivity|reflexivity|].
  apply (no_emission_after_teardown asciiToLowerCase
           (run asciiToLowerCase (mount 0).1 [Change "r"; Elapse 100]).1
           [Elapse 1000; Change "re"; Elapse 1000]).
  - by exists 0, [Change "r"; Elapse 100].
  - reflexivity.
Defined.

(** ** Where the debounced value comes from *)

Lemma elapse_debounced ms s :
  debouncedSearchKey (elapse ms s).1 = debouncedSearchKey s
  ∨ ∃ t, t ∈ timers s ∧ debouncedSearchKey (elapse ms s).1 = captured t.
Proof.
  unfold elapse. cbn [fst debouncedSearchKey].
  destruct (foldl_fire_fields s
    (List.filter (λ t, Nat.leb (deadline t) (now s + ms)) (timers s)))
    as (_&_&_&_&_&_&_&_&_&Hd).
  rewrite Hd.
  destruct (last _) as [t|] eqn:Hlast; [right|by left].
  exists t. split; [|done].
  apply last_Some_elem_of in Hlast.
  apply list_elem_of_In, filter_In in Hlast as [Hin _]. by apply list_elem_of_In.
Qed.

Section History.
Variable toLowerCase : string → string.
Abbreviation step := (step toLowerCase).
Abbreviation run := (run toLowerCase).
Abbreviation held := (held toLowerCase).

Lemma step_debounced_source s e :
  debouncedSearchKey (step s e).1 = debouncedSearchKey s
  ∨ ∃ t, t ∈ timers s ∧ debouncedSearchKey (step s e).1 = captured t.
Proof.
  destruct e as [v|id|id|o|ms|];
    [simpl|simpl|simpl|simpl|apply elapse_debounced|simpl]; left.
  - destruct (mounted s); [|done]. unfold handleSearchChange.
    case_bool_decide; [done|]. cbn [fst]. unfold debounceEffect. simpl.
    apply (debounceCleanup_fields (mkState _ _ _ _ _ _ _ _ _ _)).
  - by destruct (mounted s && displayed toLowerCase id s).
  - by destruct (mounted s && displayed toLowerCase id s).
  - destruct (fetchInFlight s); [|done]. unfold settleFetch.
    by destruct (fetchProducts o).
  - destruct (mounted s); [|done]. apply (debounceCleanup_fields s).
Qed.

Lemma step_timers_source s e t :
  t ∈ timers (step s e).1 → t ∈ timers s ∨ captured t = searchKey (step s e).1.
Proof.
  destruct e as [v|id|id|o|ms|];
    [simpl|simpl|simpl|simpl|rewrite step_Elapse|simpl].
  - destruct (mounted s); [|by left]. unfold handleSearchChange.
    case_bool_decide; [by left|]. cbn [fst]. unfold debounceEffect. simpl.
    set (s1 := mkState _ _ v _ _ _ _ _ _ _).
    destruct (debounceCleanup_fields s1) as (_&_&Hk&_&_&_&_&_&Hts).
    intros [Ht|Ht%list_elem_of_singleton]%elem_of_app.
    + left. by apply (Hts t).
    + right. by rewrite Ht, Hk.
  - destruct (mounted s && displayed toLowerCase id s); by left.
  - destruct (mounted s && displayed toLowerCase id s); by left.
  - destruct (fetchInFlight s); [|by left]. unfold settleFetch.
    destruct (fetchProducts o); by left.
  - intros Ht. left. by apply (elapse_fields ms s).
  - destruct (mounted s); [|by left]. intros Ht. left.
    by apply (debounceCleanup_fields s).
Qed.

Lemma step_searchKey s e :
  searchKey (step s e).1 = searchKey s
  ∨ ∃ v, e = Change v ∧ searchKey (step s e).1 = v.
Proof.
  destruct e as [v|id|id|o|ms|];
    [simpl|simpl|simpl|simpl|rewrite step_Elapse|simpl].
  - destruct (mounted s); [|by left]. unfold handleSearchChange.
    case_bool_decide; [by left|]. right. exists v. split; [done|].
    cbn [fst]. unfold debounceEffect. simpl.
    apply (debounceCleanup_fields (mkState _ _ _ _ _ _ _ _ _ _)).
  - left. by destruct (mounted s && displayed toLowerCase id s).
  - left. by destruct (mounted s && displayed toLowerCase id s).
  - left. destruct (fetchInFlight s); [|done]. unfold settleFetch.
    by destruct (fetchProducts o).
  - left. apply (elapse_fields ms s).
  - left. destruct (mounted s); [|done]. apply (debounceCleanup_fields s).
Qed.

Lemma run_searchKey_typed s es :
  searchKey (run s es).1 ∈ searchKey s :: typed es.
Proof.
  revert s; induction es as [|e es IH]; intros s.
  - apply list_elem_of_here.
  - rewrite run_cons. cbn [fst].
    specialize (IH (step s e).1).
    apply elem_of_cons in IH as [IH|IH].
    + rewrite IH. destruct (step_searchKey s e) as [->|[v [-> ->]]].
      * apply list_elem_of_here.
      * apply list_elem_of_further, list_elem_of_here.
    + apply list_elem_of_further. unfold typed in *. simpl.
      destruct e; try done. by apply list_elem_of_further.
Qed.

Lemma held_snoc s0 es e v : held s0 es v → held s0 (es ++ [e]) v.
Proof.
  intros (es1&es2&->&Hv). exists es1, (es2 ++ [e])%list.
  by rewrite app_assoc.
Qed.

Lemma held_now s0 es : held s0 es (searchKey (run s0 es).1).
Proof. exists es, []. by rewrite app_nil_r. Qed.

Lemma held_typed s0 es v : held s0 es v → v ∈ searchKey s0 :: typed es.
Proof.
  intros (es1&es2&->&<-).
  pose proof (run_searchKey_typed s0 es1) as Hin.
  apply elem_of_cons in Hin as [->|Hin]; [apply list_elem_of_here|].
  apply list_elem_of_further. unfold typed in *. rewrite omap_app.
  apply elem_of_app. by left.
Qed.

Lemma run_debounced_held s0 es :
  held s0 [] (debouncedSearchKey s0) →
  (∀ t, t ∈ timers s0 → held s0 [] (captured t)) →
  held s0 es (debouncedSearchKey (run s0 es).1)
  ∧ ∀ t, t ∈ timers (run s0 es).1 → held s0 es (captured t).
Proof.
  intros Hd0 Ht0. induction es as [|e es [IHd IHt]] using rev_ind; [done|].
  rewrite run_snoc. split.
  - destruct (step_debounced_source (run s0 es).1 e) as [->|[t [Ht ->]]].
    + by apply held_snoc.
    + by apply held_snoc, IHt.
  - intros t Ht. apply step_timers_source in Ht as [Ht|Ht].
    + by apply held_snoc, IHt.
    + rewrite Ht, <- run_snoc. apply held_now.
Qed.

(** C6: in every state the component reaches, the debounced query
    equals the value the raw query had after some earlier part of the
    events (the initial empty string when that part is empty); so it is
    the empty string or one of the values typed, never anything else. *)
Theorem debounced_is_past_raw_value (t0 : nat) (es : list Event) :
  (∃ es1 es2, es = (es1 ++ es2)%list
     ∧ debouncedSearchKey (run (mount t0).1 es).1
       = searchKey (run (mount t0).1 es1).1)
  ∧ debouncedSearchKey (run (mount t0).1 es).1 ∈ "" :: typed es.
Proof.
  assert (Hheld : held (mount t0).1 es
                    (debouncedSearchKey (run (mount t0).1 es).1)).
  { apply run_debounced_held.
    - by exists [], [].
    - intros t ->%list_elem_of_singleton. by exists [], []. }
  split.
  - destruct Hheld as (es1&es2&Hes&Hv). by exists es1, es2.
  - by apply held_typed in Hheld.
Qed.
End History.

(** ** What the image status map holds *)

Lemma handleSignal_lookup_cases m g id :
  handleSignal m g !! id = m !! id
  ∨ handleSignal m g !! id = Some (Flag false)
  ∨ handleSignal m g !! id = Some ErrorTag.
Proof.
  destruct (decide (signalId g = id)) as [<-|Hne].
  - right. destruct g; simpl; unfold handleImageLoad, handleImageError;
      rewrite lookup_insert_eq; auto.
  - left. by apply handleSignal_lookup_ne.
Qed.

Lemma run_imageLoading_entries toLowerCase s es id :
  imageLoading (run toLowerCase s es).1 !! id = imageLoading s !! id
  ∨ imageLoading (run toLowerCase s es).1 !! id = Some (Flag false)
  ∨ imageLoading (run toLowerCase s es).1 !! id = Some ErrorTag.
Proof.
  induction es as [|e es IH] using rev_ind; [by left|].
  rewrite run_snoc.
  destruct (step_imageLoading_signal toLowerCase (run toLowerCase s es).1 e)
    as [->|[g [_ ->]]]; [done|].
  destruct (handleSignal_lookup_cases
              (imageLoading (run toLowerCase s es).1) g id) as [->|H]; auto.
Qed.

(** C10: in every state the component reaches, each entry of the image
    status map is [false] or ["error"]: no entry is ever [true].  An id
    is therefore pending exactly when it has no entry. *)
Theorem imageLoading_never_true
    (toLowerCase : string → string) (s : State) (id : string) :
  reachable toLowerCase s →
  (∀ v, imageLoading s !! id = Some v → v = Flag false ∨ v = ErrorTag)
  ∧ imageLoading s !! id ≠ Some (Flag true)
  ∧ (status (imageLoading s) id = pending ↔ imageLoading s !! id = None).
Proof.
  intros [t0 [es ->]].
  assert (Hcases : imageLoading (run toLowerCase (mount t0).1 es).1 !! id = None
            ∨ imageLoading (run toLowerCase (mount t0).1 es).1 !! id
              = Some (Flag false)
            ∨ imageLoading (run toLowerCase (mount t0).1 es).1 !! id
              = Some ErrorTag).
  { destruct (run_imageLoading_entries toLowerCase (mount t0).1 es id)
      as [H|H]; [left|by right].
    rewrite H. apply lookup_empty. }
  unfold status.
  destruct Hcases as [-> |[-> | ->]]; split_and!; try done; intros v [= <-]; auto.
Qed.

Lemma imageLoading_never_true_witness :
  reachable asciiToLowerCase
    (run asciiToLowerCase (mount 0).1
       (redShoeShownAgain ++ [ImageError "1"; ImageLoad "2"])).1
  ∧ imageLoading
      (run asciiToLowerCase (mount 0).1
         (redShoeShownAgain ++ [ImageError "1"; ImageLoad "2"])).1 !! "1"
    ≠ Some (Flag true).
Proof.
  assert (Hreach : reachable asciiToLowerCase
            (run asciiToLowerCase (mount 0).1
               (redShoeShownAgain ++ [ImageError "1"; ImageLoad "2"])).1)
    by (by exists 0, (redShoeShownAgain ++ [ImageError "1"; ImageLoad "2"])%list).
  split; [done|].
  by apply (imageLoading_never_true asciiToLowerCase
              (run asciiToLowerCase (mount 0).1
                 (redShoeShownAgain ++ [ImageError "1"; ImageLoad "2"])).1 "1").
Defined.

(** ** The initial fetch *)

Lemma failed_fetchProducts o :
  failed o = true ↔ ∃ err, fetchProducts o = inl err.
Proof.
  destruct o as [e|st [e|ps]]; simpl.
  - split; [by exists e|done].
  - rewrite orb_true_r. split; [intros _|done].
    destruct (negb (responseOk st)); eauto.
  - rewrite orb_false_r. destruct (negb (responseOk st)); simpl.
    + split; [eauto|done].
    + split; [done|by intros [err ?]].
Qed.

Section Fetch.
Variable toLowerCase : string → string.
Abbreviation step := (step toLowerCase).
Abbreviation run := (run toLowerCase).

Lemma step_no_fetch_call s e : List.filter isFetchCall (step s e).2 = [].
Proof.
  destruct e as [v|id|id|o|ms|];
    [simpl|simpl|simpl|simpl|rewrite step_Elapse|simpl].
  - by destruct (mounted s).
  - by destruct (mounted s && displayed toLowerCase id s).
  - by destruct (mounted s && displayed toLowerCase id s).
  - destruct (fetchInFlight s); [|done]. unfold settleFetch.
    by destruct (fetchProducts o).
  - unfold elapse. cbn [snd].
    induction (List.filter _ (timers s)) as [|t ts IH]; [done|]. by simpl.
  - by destruct (mounted s).
Qed.

Lemma run_no_fetch_call s es : List.filter isFetchCall (run s es).2 = [].
Proof.
  revert s; induction es as [|e es IH]; intros s; [done|].
  rewrite run_cons. cbn [snd]. by rewrite List.filter_app, step_no_fetch_call, IH.
Qed.

(** Only the settlement of the fetch touches [products], and the fetch
    settles once. *)
Lemma step_products s e :
  (fetchInFlight s = false →
     fetchInFlight (step s e).1 = false ∧ products (step s e).1 = products s)
  ∧ (fetchInFlight (step s e).1 = true →
     fetchInFlight s = true ∧ products (step s e).1 = products s).
Proof.
  destruct e as [v|id|id|o|ms|];
    [simpl|simpl|simpl|simpl|rewrite step_Elapse|simpl].
  - destruct (mounted s); [|done]. unfold handleSearchChange.
    case_bool_decide; [done|]. cbn [fst]. unfold debounceEffect. simpl.
    destruct (debounceCleanup_fields (mkState (mounted s) (products s) v
      (debouncedSearchKey s) (imageLoading s) (handler s) (now s) (timers s)
      (nextTimerId s) (fetchInFlight s))) as (_&Hp&_&_&_&_&_&Hf&_).
    rewrite Hp, Hf. simpl. by split; intros ->.
  - by destruct (mounted s && displayed toLowerCase id s).
  - by destruct (mounted s && displayed toLowerCase id s).
  - destruct (fetchInFlight s) eqn:Hf; [|simpl; split; [done|congruence]].
    unfold settleFetch. by destruct (fetchProducts o).
  - destruct (elapse_fields ms s) as (_&Hp&_&_&_&_&_&Hf&_).
    rewrite Hp, Hf. by split; intros ->.
  - destruct (mounted s); [|done]. simpl.
    destruct (debounceCleanup_fields s) as (_&Hp&_&_&_&_&_&Hf&_).
    rewrite Hp, Hf. by split; intros ->.
Qed.

Lemma run_products_settled s es :
  fetchInFlight s = false → products (run s es).1 = products s.
Proof.
  revert s; induction es as [|e es IH]; intros s Hf; [done|].
  rewrite run_cons. cbn [fst].
  destruct (proj1 (step_products s e) Hf) as [Hf' Hp]. by rewrite IH.
Qed.

Lemma run_products_in_flight s es :
  products s = [] → fetchInFlight (run s es).1 = true → products (run s es).1 = [].
Proof.
  intros Hp. induction es as [|e es IH] using rev_ind; [done|].
  rewrite run_snoc. intros Hf.
  destruct (proj2 (step_products (run s es).1 e) Hf) as [Hf' ->]. by apply IH.
Qed.

(** C8: while the initial fetch is in flight the product list is empty.
    If the fetch then fails (the promise rejects, the response is not
    2xx, or its body cannot be read), the error is caught and logged
    with [console.error] and nothing else happens: the product list is
    still empty, the page is the one rendered before (no cards and no
    error message), and for any further events the list stays empty
    and no second fetch is issued. *)
Theorem failed_fetch_leaves_list_empty
    (t0 : nat) (es es' : list Event) (o : FetchOutcome) :
  fetchInFlight (run (mount t0).1 es).1 = true →
  failed o = true →
  (∃ err, fetchProducts o = inl err
     ∧ (step (run (mount t0).1 es).1 (FetchSettled o)).2
       = [ConsoleError "Failed to fetch products:" err])
  ∧ products (run (mount t0).1 es).1 = []
  ∧ products (step (run (mount t0).1 es).1 (FetchSettled o)).1 = []
  ∧ render toLowerCase (step (run (mount t0).1 es).1 (FetchSettled o)).1
    = render toLowerCase (run (mount t0).1 es).1
  ∧ cards (render toLowerCase (step (run (mount t0).1 es).1 (FetchSettled o)).1) = []
  ∧ fetchInFlight (step (run (mount t0).1 es).1 (FetchSettled o)).1 = false
  ∧ products (run (step (run (mount t0).1 es).1 (FetchSettled o)).1 es').1 = []
  ∧ List.filter isFetchCall
      (run (step (run (mount t0).1 es).1 (FetchSettled o)).1 es').2 = [].
Proof.
  intros Hf [err Herr]%failed_fetchProducts.
  assert (Hp : products (run (mount t0).1 es).1 = [])
    by (by apply run_products_in_flight).
  set (s := (run (mount t0).1 es).1) in *.
  assert (Hstep : step s (FetchSettled o)
            = (mkState (mounted s) (products s) (searchKey s)
                 (debouncedSearchKey s) (imageLoading s) (handler s) (now s)
                 (timers s) (nextTimerId s) false,
               [ConsoleError "Failed to fetch products:" err])).
  { simpl. rewrite Hf. unfold settleFetch. by rewrite Herr. }
  rewrite Hstep. cbn [fst snd].
  split_and!; try done.
  - by exists err.
  - unfold render; simpl. by rewrite Hp.
  - by rewrite run_products_settled.
  - apply run_no_fetch_call.
Qed.
End Fetch.

Lemma failed_fetch_leaves_list_empty_witness :
  fetchInFlight (run asciiToLowerCase (mount 0).1 [Change "red"; Elapse 50]).1 = true
  ∧ failed (FetchResponse 404 (inr [redShoe; blueHat])) = true
  ∧ (step asciiToLowerCase
       (run asciiToLowerCase (mount 0).1 [Change "red"; Elapse 50]).1
       (FetchSettled (FetchResponse 404 (inr [redShoe; blueHat])))).2
    = [ConsoleError "Failed to fetch products:" "HTTP error! status: 404"]
  ∧ products
      (run asciiToLowerCase
         (step asciiToLowerCase
            (run asciiToLowerCase (mount 0).1 [Change "red"; Elapse 50]).1
            (FetchSettled (FetchResponse 404 (inr [redShoe; blueHat])))).1
         [Elapse 250; FetchSettled (FetchResponse 200 (inr [redShoe]))]).1 = [].
Proof.
  destruct (failed_fetch_leaves_list_empty asciiToLowerCase 0
              [Change "red"; Elapse 50]
              [Elapse 250; FetchSettled (FetchResponse 200 (inr [redShoe]))]
              (FetchResponse 404 (inr [redShoe; blueHat])))
    as ([err [Herr Hlog]]&_&_&_&_&_&Hlater&_); [reflexivity|reflexivity|].
  split_and!; [reflexivity|reflexivity| |exact Hlater].
  rewrite Hlog. f_equal. f_equal. vm_compute in Herr. congruence.
Defined.

(** ** The scenarios of the specification *)

Example filter_red :
  filteredProducts asciiToLowerCase [redShoe; blueHat] "red" = [redShoe].
Proof. reflexivity. Qed.

Example filter_is_case_insensitive :
  filteredProducts asciiToLowerCase [redShoe; blueHat] "HAT" = [blueHat].
Proof. reflexivity. Qed.

Example filter_empty_query :
  filteredProducts asciiToLowerCase [redShoe; blueHat] "" = [redShoe; blueHat].
Proof. by apply filteredProducts_empty_query. Qed.

Example typing_red :
  run asciiToLowerCase (mount 0).1
    [Change "r"; Elapse 100; Change "re"; Elapse 100; Change "red"; Elapse 300]
  = (mkState true [] "red" "red" ∅ (Some 4) 500 [] 5 true,
     [SetDebouncedSearchKey 500 "red"]).
Proof. reflexivity. Qed.

Example image_error_for_blue_hat :
  cards (render asciiToLowerCase
    (run asciiToLowerCase (mount 0).1
       [FetchSettled (FetchResponse 200 (inr [redShoe; blueHat]));
        ImageError "2"]).1)
  = [mkCard "1" (Some SpinnerContainer)
       (mkImg "a" "Red Shoe Image" "product-image " true) "Red Shoe" 10%float;
     mkCard "2" (Some (Text "Image not available"))
       (mkImg "b" "Blue Hat Image" "product-image " true) "Blue Hat" 5%float].
Proof. reflexivity. Qed.

Example fetch_404_is_logged :
  (run asciiToLowerCase (mount 0).1
     [FetchSettled (FetchResponse 404 (inr [redShoe; blueHat]))]).2
  = [ConsoleError "Failed to fetch products:" "HTTP error! status: 404"].
Proof. reflexivity. Qed.

(** ** The debounce timer, in every reachable state *)

Lemma elapse_no_timer m p k d a h (n : nat) nx f (ms : nat) :
  elapse ms (mkState m p k d a h n [] nx f)
  = (mkState m p k d a h (n + ms) [] nx f, []).
Proof. reflexivity. Qed.

Lemma mount_debounceInv t0 : debounceInv (mount t0).1.
Proof.
  split_and!; simpl; [lia| |done].
  intros t ->%list_elem_of_singleton. simpl. unfold debounceDelay.
  split_and!; try done; lia.
Qed.

Lemma step_debounceInv toLowerCase s e :
  debounceInv s → debounceInv (step toLowerCase s e).1.
Proof.
  intros Hinv. pose proof Hinv as (Hlen&Hts&Hcaught).
  destruct e as [v|id|id|o|ms|];
    [simpl|simpl|simpl|simpl|rewrite step_Elapse|simpl].
  - destruct (mounted s) eqn:Hm; [|done]. cbn [fst].
    destruct (decide (v = searchKey s)) as [Hv|Hv].
    { unfold handleSearchChange. by rewrite bool_decide_eq_true_2. }
    rewrite handleSearchChange_rearms; [|split; [apply Hts|congruence]|done].
    split_and!; simpl; [lia| |done].
    intros t ->%list_elem_of_singleton. simpl. unfold debounceDelay.
    split_and!; try done; lia.
  - by destruct (mounted s && displayed toLowerCase id s).
  - by destruct (mounted s && displayed toLowerCase id s).
  - destruct (fetchInFlight s); [|done]. unfold settleFetch.
    by destruct (fetchProducts o).
  - clear Hinv. destruct s as [m p k d a h n ts nx f]; simpl in Hlen, Hts, Hcaught.
    destruct ts as [|[id dl w] [|t' ts]]; [| |simpl in Hlen; lia].
    + rewrite elapse_no_timer. split_and!; simpl; [lia| |done].
      by intros t ?%elem_of_nil.
    + destruct (Hts _ (list_elem_of_here _ _)) as (Hw&Hh&Hlt&Hle).
      simpl in Hw, Hh, Hlt, Hle.
      destruct (decide (dl ≤ n + ms)) as [Hdue|Hearly].
      * rewrite elapse_single_due by done.
        split_and!; simpl; [lia| |done]. by intros t ?%elem_of_nil.
      * rewrite elapse_single_early by lia.
        split_and!; simpl; [lia| |done].
        intros t ->%list_elem_of_singleton. simpl. split_and!; try done; lia.
  - destruct (mounted s) eqn:Hm; [|done].
    assert (Hgone : timers (unmount s) = []).
    { apply debounceCleanup_owned. split; [apply Hts|congruence]. }
    cbn [fst]. split_and!; rewrite ?Hgone; simpl; [lia| |done].
    by intros t ?%elem_of_nil.
Qed.

Lemma run_debounceInv toLowerCase s es :
  debounceInv s → debounceInv (run toLowerCase s es).1.
Proof.
  revert s; induction es as [|e es IH]; intros s Hinv; [done|].
  rewrite run_cons. cbn [fst]. by apply IH, step_debounceInv.
Qed.

Lemma reachable_debounceInv toLowerCase s :
  reachable toLowerCase s → debounceInv s.
Proof. intros [t0 [es ->]]. apply run_debounceInv, mount_debounceInv. Qed.

(** X1: in every state the component reaches, at most one debounce
    timer is pending; a pending timer carries the current raw query and
    falls due strictly after now and at most 300 ms from now; a mounted
    component with no pending timer has its debounced query equal to
    the raw query; and a torn-down component has no pending timer. *)
Theorem one_pending_timer (toLowerCase : string → string) (s : State) :
  reachable toLowerCase s →
  length (timers s) ≤ 1
  ∧ (∀ t, t ∈ timers s →
       captured t = searchKey s
       ∧ now s < deadline t ∧ deadline t ≤ now s + debounceDelay)
  ∧ (mounted s = true → timers s = [] → debouncedSearchKey s = searchKey s)
  ∧ (mounted s = false → timers s = []).
Proof.
  intros Hreach.
  destruct (reachable_debounceInv toLowerCase s Hreach) as (Hlen&Hts&Hcaught).
  destruct (reachable_timersOwned toLowerCase s Hreach) as [_ Hdown].
  split_and!; try done.
  intros t Ht. destruct (Hts t Ht) as (?&_&?&?). by split_and!.
Qed.

Lemma one_pending_timer_witness :
  reachable asciiToLowerCase
    (run asciiToLowerCase (mount 0).1
       [Change "r"; Elapse 100; Change "re"; Elapse 250]).1
  ∧ length (timers (run asciiToLowerCase (mount 0).1
                      [Change "r"; Elapse 100; Change "re"; Elapse 250]).1) ≤ 1.
Proof.
  assert (Hreach : reachable asciiToLowerCase
            (run asciiToLowerCase (mount 0).1
               [Change "r"; Elapse 100; Change "re"; Elapse 250]).1)
    by (by exists 0, [Change "r"; Elapse 100; Change "re"; Elapse 250]).
  split; [done|].
  by apply (one_pending_timer asciiToLowerCase
              (run asciiToLowerCase (mount 0).1
                 [Change "r"; Elapse 100; Change "re"; Elapse 250]).1).
Defined.

(** X2: whenever the mounted component is left alone for 300 ms or
    more, whatever happened before, the debounced query equals the raw
    query afterwards, no timer is pending, the raw query is untouched
    and [setDebouncedSearchKey] was called at most once meanwhile. *)
Theorem quiet_interval_catches_up
    (toLowerCase : string → string) (s : State) (ms : nat) :
  reachable toLowerCase s → mounted s = true → debounceDelay ≤ ms →
  debouncedSearchKey (step toLowerCase s (Elapse ms)).1 = searchKey s
  ∧ searchKey (step toLowerCase s (Elapse ms)).1 = searchKey s
  ∧ timers (step toLowerCase s (Elapse ms)).1 = []
  ∧ length (emissions (step toLowerCase s (Elapse ms)).2) ≤ 1.
Proof.
  intros (Hlen&Hts&Hcaught)%reachable_debounceInv Hm Hms.
  rewrite step_Elapse.
  destruct s as [m p k d a h n ts nx f]; simpl in Hlen, Hts, Hcaught, Hm.
  destruct ts as [|[id dl w] [|t' ts]]; [| |simpl in Hlen; lia].
  - rewrite elapse_no_timer. simpl. split_and!; auto.
  - destruct (Hts _ (list_elem_of_here _ _)) as (Hw&_&_&Hle). simpl in Hw, Hle.
    rewrite elapse_single_due by lia. simpl. split_and!; auto.
Qed.

Lemma quiet_interval_catches_up_witness :
  mounted (run asciiToLowerCase (mount 0).1
             [Change "r"; Elapse 100; Change "re"; Elapse 250]).1 = true
  ∧ debounceDelay ≤ 300
  ∧ debouncedSearchKey
      (step asciiToLowerCase
         (run asciiToLowerCase (mount 0).1
            [Change "r"; Elapse 100; Change "re"; Elapse 250]).1
         (Elapse 300)).1 = "re".
Proof.
  assert (Hq : debounceDelay ≤ 300) by (unfold debounceDelay; lia).
  split_and!; [reflexivity|done|].
  apply (quiet_interval_catches_up asciiToLowerCase
           (run asciiToLowerCase (mount 0).1
              [Change "r"; Elapse 100; Change "re"; Elapse 250]).1 300);
    [by exists 0, [Change "r"; Elapse 100; Change "re"; Elapse 250]
    |reflexivity|done].
Defined.

(** X3: in a reachable state, letting [a] ms pass and then [b] ms is
    the same as letting [a + b] ms pass: same state, same calls. *)
Theorem elapse_splits
    (toLowerCase : string → string) (s : State) (a b : nat) :
  reachable toLowerCase s →
  run toLowerCase s [Elapse a; Elapse b] = run toLowerCase s [Elapse (a + b)].
Proof.
  intros (Hlen&Hts&_)%reachable_debounceInv.
  rewrite !run_cons, !step_Elapse. cbn [run].
  destruct s as [m p k d c h n ts nx f]; simpl in Hlen, Hts.
  destruct ts as [|[id dl w] [|t' ts]]; [| |simpl in Hlen; lia].
  - rewrite !elapse_no_timer. cbn [fst snd]. rewrite elapse_no_timer.
    cbn [fst snd]. by rewrite Nat.add_assoc.
  - destruct (decide (dl ≤ n + a)) as [Ha|Ha].
    + rewrite !elapse_single_due by lia. cbn [fst snd].
      rewrite elapse_no_timer. cbn [fst snd]. by rewrite Nat.add_assoc.
    + rewrite (elapse_single_early _ _ _ _ _ _ _ _ _ _ _ _ a) by lia.
      cbn [fst snd].
      destruct (decide (dl ≤ n + a + b)) as [Hb|Hb].
      * rewrite !elapse_single_due by lia. cbn [fst snd].
        by rewrite Nat.add_assoc.
      * rewrite !elapse_single_early by lia. cbn [fst snd].
        by rewrite Nat.add_assoc.
Qed.

Lemma elapse_splits_witness :
  reachable asciiToLowerCase (run asciiToLowerCase (mount 0).1 [Change "r"]).1
  ∧ run asciiToLowerCase (run asciiToLowerCase (mount 0).1 [Change "r"]).1
      [Elapse 120; Elapse 200]
    = run asciiToLowerCase (run asciiToLowerCase (mount 0).1 [Change "r"]).1
        [Elapse (120 + 200)].
Proof.
  assert (Hreach : reachable asciiToLowerCase
            (run asciiToLowerCase (mount 0).1 [Change "r"]).1)
    by (by exists 0, [Change "r"]).
  split; [done|].
  by apply (elapse_splits asciiToLowerCase
              (run asciiToLowerCase (mount 0).1 [Change "r"]).1 120 200).
Defined.

(** ** Nothing is emitted before the delay has passed *)

Lemma filter_none {A} (f : A → bool) (l : list A) :
  (∀ x, x ∈ l → f x = false) → List.filter f l = [].
Proof.
  induction l as [|x l IH]; intros Hf; simpl; [done|].
  rewrite (Hf x) by apply list_elem_of_here.
  apply IH. intros y Hy. apply Hf. by apply list_elem_of_further.
Qed.

Lemma elapse_none_due ms s :
  (∀ t, t ∈ timers s → now s + ms < deadline t) →
  (elapse ms s).2 = []
  ∧ debouncedSearchKey (elapse ms s).1 = debouncedSearchKey s.
Proof.
  intros Hnone. unfold elapse. cbn [fst snd debouncedSearchKey].
  rewrite filter_none; [done|].
  intros t Ht. apply Nat.leb_gt. by apply Hnone.
Qed.

Section Quiet.
Variable toLowerCase : string → string.
Abbreviation step := (step toLowerCase).
Abbreviation run := (run toLowerCase).

Lemma step_now s e :
  now (step s e).1 = now s + elapsed [e].
Proof.
  destruct e as [v|id|id|o|ms|];
    [simpl|simpl|simpl|simpl|rewrite step_Elapse|simpl];
    unfold elapsed; simpl; rewrite ?Nat.add_0_r.
  - destruct (mounted s); [|done]. unfold handleSearchChange.
    case_bool_decide; [done|]. cbn [fst]. unfold debounceEffect. simpl.
    apply (debounceCleanup_fields (mkState _ _ _ _ _ _ _ _ _ _)).
  - by destruct (mounted s && displayed toLowerCase id s).
  - by destruct (mounted s && displayed toLowerCase id s).
  - destruct (fetchInFlight s); [|done]. unfold settleFetch.
    by destruct (fetchProducts o).
  - apply (elapse_fields ms s).
  - destruct (mounted s); [|done]. apply (debounceCleanup_fields s).
Qed.

Lemma step_timers_deadline s e t :
  t ∈ timers (step s e).1 →
  t ∈ timers s ∨ deadline t = now s + debounceDelay.
Proof.
  destruct e as [v|id|id|o|ms|];
    [simpl|simpl|simpl|simpl|rewrite step_Elapse|simpl].
  - destruct (mounted s); [|by left]. unfold handleSearchChange.
    case_bool_decide; [by left|]. cbn [fst]. unfold debounceEffect. simpl.
    set (s1 := mkState _ _ v _ _ _ _ _ _ _).
    destruct (debounceCleanup_fields s1) as (_&_&_&_&_&Hn&_&_&Hts).
    intros [Ht|Ht%list_elem_of_singleton]%elem_of_app.
    + left. by apply (Hts t).
    + right. by rewrite Ht, Hn.
  - destruct (mounted s && displayed toLowerCase id s); by left.
  - destruct (mounted s && displayed toLowerCase id s); by left.
  - destruct (fetchInFlight s); [|by left]. unfold settleFetch.
    destruct (fetchProducts o); by left.
  - intros Ht. left. by apply (elapse_fields ms s).
  - destruct (mounted s); [|by left]. intros Ht. left.
    by apply (debounceCleanup_fields s).
Qed.

Lemma step_none_due s e :
  (∀ t, t ∈ timers s → now s + elapsed [e] < deadline t) →
  emissions (step s e).2 = []
  ∧ debouncedSearchKey (step s e).1 = debouncedSearchKey s.
Proof.
  intros Hnone.
  destruct e as [v|id|id|o|ms|];
    [simpl|simpl|simpl|simpl|rewrite step_Elapse|simpl].
  - destruct (mounted s); [|done]. unfold handleSearchChange.
    case_bool_decide; [done|]. cbn [fst snd]. unfold debounceEffect. simpl.
    split; [done|]. apply (debounceCleanup_fields (mkState _ _ _ _ _ _ _ _ _ _)).
  - by destruct (mounted s && displayed toLowerCase id s).
  - by destruct (mounted s && displayed toLowerCase id s).
  - destruct (fetchInFlight s); [|done]. unfold settleFetch.
    by destruct (fetchProducts o).
  - destruct (elapse_none_due ms s) as [-> ->]; [|done].
    intros t Ht. specialize (Hnone t Ht). unfold elapsed in Hnone.
    simpl in Hnone. lia.
  - destruct (mounted s); [|done]. cbn [fst snd]. split; [done|].
    apply (debounceCleanup_fields s).
Qed.

Lemma elapsed_cons e es : elapsed (e :: es) = elapsed [e] + elapsed es.
Proof. unfold elapsed. destruct e; simpl; unfold omap; lia. Qed.

Lemma run_none_due es s (due : nat) :
  (∀ t, t ∈ timers s → due ≤ deadline t) →
  due ≤ now s + debounceDelay →
  now s + elapsed es < due →
  emissions (run s es).2 = []
  ∧ debouncedSearchKey (run s es).1 = debouncedSearchKey s.
Proof.
  revert s; induction es as [|e es IH]; intros s Hts Hdue Hnow; [done|].
  rewrite elapsed_cons in Hnow. rewrite run_cons. cbn [fst snd].
  destruct (step_none_due s e) as [He Hd].
  { intros t Ht. specialize (Hts t Ht). lia. }
  destruct (IH (step s e).1) as [IHe IHd].
  - intros t [Ht| ->]%step_timers_deadline; [by apply Hts|done].
  - rewrite step_now. lia.
  - rewrite step_now. lia.
  - split; [|congruence]. unfold emissions in *. by rewrite omap_app, He, IHe.
Qed.

(** X4: after a change of the raw query, [setDebouncedSearchKey] is not
    called, and the debounced query does not move, for as long as less
    than 300 ms have passed, whatever else happens meanwhile (further
    keystrokes, image events, the fetch settling, teardown). *)
Theorem no_emission_within_delay (s : State) (v : string) (es : list Event) :
  reachable toLowerCase s → mounted s = true → v ≠ searchKey s →
  elapsed es < debounceDelay →
  emissions (run s (Change v :: es)).2 = []
  ∧ debouncedSearchKey (run s (Change v :: es)).1 = debouncedSearchKey s.
Proof.
  intros Hown%reachable_timersOwned Hm Hv Hes.
  rewrite run_cons, step_Change by done. cbn [fst snd].
  rewrite handleSearchChange_rearms by done.
  set (s1 := mkState _ _ _ _ _ _ _ _ _ _).
  destruct (run_none_due es s1 (now s + debounceDelay)) as [He Hd]; try done.
  - by intros t ->%list_elem_of_singleton.
  - simpl. lia.
Qed.
End Quiet.

Lemma no_emission_within_delay_witness :
  mounted (mount 0).1 = true
  ∧ "r" ≠ searchKey (mount 0).1
  ∧ elapsed [Elapse 100; FetchSettled (FetchResponse 200 (inr [redShoe]));
             ImageLoad "1"; Change "re"; Elapse 199] < debounceDelay
  ∧ emissions
      (run asciiToLowerCase (mount 0).1
         (Change "r" ::
          [Elapse 100; FetchSettled (FetchResponse 200 (inr [redShoe]));
           ImageLoad "1"; Change "re"; Elapse 199])).2 = [].
Proof.
  assert (Hv : "r" ≠ searchKey (mount 0).1) by discriminate.
  assert (Hes : elapsed [Elapse 100;
                         FetchSettled (FetchResponse 200 (inr [redShoe]));
                         ImageLoad "1"; Change "re"; Elapse 199] < debounceDelay)
    by (vm_compute; lia).
  split_and!; [reflexivity|done|done|].
  apply (no_emission_within_delay asciiToLowerCase (mount 0).1 "r"
           [Elapse 100; FetchSettled (FetchResponse 200 (inr [redShoe]));
            ImageLoad "1"; Change "re"; Elapse 199]);
    [by exists 0, []|reflexivity|done|done].
Defined.

(** ** The fetch: success, status bounds, no cancellation *)


Section FetchMore.
Variable toLowerCase : string → string.
Abbreviation step := (step toLowerCase).
Abbreviation run := (run toLowerCase).

Lemma step_fetchInFlight_kept s e :
  isFetchSettled e = false → fetchInFlight (step s e).1 = fetchInFlight s.
Proof.
  destruct e as [v|id|id|o|ms|];
    [simpl|simpl|simpl|simpl|rewrite step_Elapse|simpl]; intros He; try done.
  - destruct (mounted s); [|done]. unfold handleSearchChange.
    case_bool_decide; [done|]. cbn [fst]. unfold debounceEffect. simpl.
    apply (debounceCleanup_fields (mkState _ _ _ _ _ _ _ _ _ _)).
  - by destruct (mounted s && displayed toLowerCase id s).
  - by destruct (mounted s && displayed toLowerCase id s).
  - apply (elapse_fields ms s).
  - destruct (mounted s); [|done]. apply (debounceCleanup_fields s).
Qed.

Lemma run_fetchInFlight_kept s es :
  Forall (λ e, isFetchSettled e = false) es →
  fetchInFlight (run s es).1 = fetchInFlight s.
Proof.
  intros Hes; revert s; induction Hes as [|e es He _ IH]; intros s; [done|].
  rewrite run_cons. cbn [fst]. by rewrite IH, step_fetchInFlight_kept.
Qed.

(** X5: when the fetch in flight settles with a 2xx response whose
    body can be read, the product list becomes the list of the body and
    nothing is logged; the list is set once: no later event, a second
    settlement included, changes it, and no further fetch is issued. *)
Theorem successful_fetch_sets_list_once
    (s : State) (o : FetchOutcome) (ps : list Product) (es : list Event) :
  fetchInFlight s = true → fetchProducts o = inr ps →
  (step s (FetchSettled o)).2 = []
  ∧ products (step s (FetchSettled o)).1 = ps
  ∧ fetchInFlight (step s (FetchSettled o)).1 = false
  ∧ products (run (step s (FetchSettled o)).1 es).1 = ps
  ∧ List.filter isFetchCall (run (step s (FetchSettled o)).1 es).2 = [].
Proof.
  intros Hf Hok.
  assert (Hstep : step s (FetchSettled o)
            = (mkState (mounted s) ps (searchKey s) (debouncedSearchKey s)
                 (imageLoading s) (handler s) (now s) (timers s)
                 (nextTimerId s) false, [])).
  { simpl. rewrite Hf. unfold settleFetch. by rewrite Hok. }
  rewrite Hstep. cbn [fst snd]. split_and!; try done.
  - by rewrite run_products_settled.
  - apply run_no_fetch_call.
Qed.

(** X7: nothing but its own settlement ends the fetch.  Whatever other
    events occur first, teardown among them, the fetch is still in
    flight, and a failure arriving then is still caught and logged. *)
Theorem fetch_is_never_cancelled (s : State) (es : list Event) (o : FetchOutcome) :
  fetchInFlight s = true →
  Forall (λ e, isFetchSettled e = false) es →
  failed o = true →
  fetchInFlight (run s es).1 = true
  ∧ ∃ err, fetchProducts o = inl err
      ∧ (step (run s es).1 (FetchSettled o)).2
        = [ConsoleError "Failed to fetch products:" err].
Proof.
  intros Hf Hes [err Herr]%failed_fetchProducts.
  assert (Hf' : fetchInFlight (run s es).1 = true)
    by (by rewrite run_fetchInFlight_kept).
  split; [done|]. exists err. split; [done|].
  simpl. rewrite Hf'. unfold settleFetch. by rewrite Herr.
Qed.
End FetchMore.

Lemma successful_fetch_sets_list_once_witness :
  fetchInFlight (mount 0).1 = true
  ∧ fetchProducts (FetchResponse 200 (inr [redShoe; blueHat]))
    = inr [redShoe; blueHat]
  ∧ products
      (run asciiToLowerCase
         (step asciiToLowerCase (mount 0).1
            (FetchSettled (FetchResponse 200 (inr [redShoe; blueHat])))).1
         [FetchSettled (FetchResponse 200 (inr [redShoe])); Change "x"; Unmount]).1
    = [redShoe; blueHat].
Proof.
  split_and!; [reflexivity|reflexivity|].
  apply (successful_fetch_sets_list_once asciiToLowerCase (mount 0).1
           (FetchResponse 200 (inr [redShoe; blueHat])) [redShoe; blueHat]
           [FetchSettled (FetchResponse 200 (inr [redShoe])); Change "x"; Unmount]);
    reflexivity.
Defined.

Lemma fetch_is_never_cancelled_witness :
  fetchInFlight (mount 0).1 = true
  ∧ Forall (λ e, isFetchSettled e = false) [Change "r"; Elapse 400; Unmount]
  ∧ failed (FetchRejected "Failed to fetch") = true
  ∧ fetchInFlight
      (run asciiToLowerCase (mount 0).1 [Change "r"; Elapse 400; Unmount]).1 = true.
Proof.
  assert (Hes : Forall (λ e, isFetchSettled e = false)
                  [Change "r"; Elapse 400; Unmount])
    by (repeat constructor).
  split_and!; [reflexivity|done|reflexivity|].
  by apply (fetch_is_never_cancelled asciiToLowerCase (mount 0).1
              [Change "r"; Elapse 400; Unmount] (FetchRejected "Failed to fetch")).
Defined.



(** ** The filter: empty and longer queries *)

Lemma append_assoc (a b c : string) : (a +:+ b) +:+ c = a +:+ (b +:+ c).
Proof.
  induction a as [|x a IH]; [done|]. by rewrite !append_cons, IH.
Qed.

Lemma substring_of_trans (a b c : string) :
  substring_of a b → substring_of b c → substring_of a c.
Proof.
  intros (p1&q1&->) (p2&q2&->). exists (p2 +:+ p1), (q1 +:+ q2).
  by rewrite !append_assoc.
Qed.

Lemma filter_narrows {A} (f g : A → bool) (l : list A) :
  (∀ x, f x = true → g x = true) →
  sublist (List.filter f l) (List.filter g l)
  ∧ List.filter f (List.filter g l) = List.filter f l.
Proof.
  intros Hfg. induction l as [|x l [IH1 IH2]]; simpl; [done|].
  destruct (f x) eqn:Hf.
  - rewrite (Hfg x Hf). simpl. rewrite Hf, IH2.
    split; [by apply sublist_skip|done].
  - destruct (g x); simpl; rewrite ?Hf; split; try done. by apply sublist_cons.
Qed.

Section FilterMore.
Variable toLowerCase : string → string.

(** X8: a query that extends another one (the lower-cased shorter query
    occurs in the lower-cased longer one) can only narrow the result:
    the products it keeps are a sublist of those the shorter query
    keeps, and filtering the shorter query's result by the longer query
    gives the same list as filtering all products by it. *)
Theorem longer_query_narrows (products : list Product) (q q' : string) :
  substring_of (toLowerCase q) (toLowerCase q') →
  sublist (filteredProducts toLowerCase products q')
          (filteredProducts toLowerCase products q)
  ∧ filteredProducts toLowerCase (filteredProducts toLowerCase products q) q'
    = filteredProducts toLowerCase products q'.
Proof.
  intros Hsub. apply filter_narrows. intros p.
  rewrite !matchesQuery_name_contains. unfold name_contains.
  by apply substring_of_trans.
Qed.

(** X9: while the debounced query lower-cases to the empty string, as
    it does from the first render until the first debounced value
    arrives, every product of the list has its card on the page, in the
    order of the list. *)
Theorem empty_query_shows_every_product (s : State) :
  toLowerCase (debouncedSearchKey s) = EmptyString →
  cards (render toLowerCase s) = renderCard (imageLoading s) <$> products s
  ∧ key <$> cards (render toLowerCase s) = productId <$> products s.
Proof.
  intros Hq. unfold render; simpl.
  rewrite filteredProducts_empty_query by done. split; [done|].
  rewrite <- list_fmap_compose. by apply list_fmap_ext.
Qed.
End FilterMore.

Lemma longer_query_narrows_witness :
  substring_of (asciiToLowerCase "Re") (asciiToLowerCase "red")
  ∧ sublist (filteredProducts asciiToLowerCase [redShoe; blueHat] "red")
            (filteredProducts asciiToLowerCase [redShoe; blueHat] "Re").
Proof.
  assert (Hsub : substring_of (asciiToLowerCase "Re") (asciiToLowerCase "red"))
    by (by exists EmptyString, "d").
  split; [done|].
  by apply (longer_query_narrows asciiToLowerCase [redShoe; blueHat] "Re" "red").
Defined.

Lemma empty_query_shows_every_product_witness :
  asciiToLowerCase
    (debouncedSearchKey
       (run asciiToLowerCase (mount 0).1
          [FetchSettled (FetchResponse 200 (inr [redShoe; blueHat]))]).1)
  = EmptyString
  ∧ key <$> cards (render asciiToLowerCase
       (run asciiToLowerCase (mount 0).1
          [FetchSettled (FetchResponse 200 (inr [redShoe; blueHat]))]).1)
    = ["1"; "2"].
Proof.
  split; [reflexivity|].
  by rewrite (proj2 (empty_query_shows_every_product asciiToLowerCase
                (run asciiToLowerCase (mount 0).1
                   [FetchSettled (FetchResponse 200 (inr [redShoe; blueHat]))]).1
                eq_refl)).
Defined.

(** ** The page: cards, image events, keystrokes *)

Lemma renderCard_lookup_eq m m' prod :
  m' !! productId prod = m !! productId prod →
  renderCard m' prod = renderCard m prod.
Proof. intros Heq. unfold renderCard. by rewrite Heq. Qed.

Lemma key_renderCard m (l : list Product) :
  key <$> (renderCard m <$> l) = productId <$> l.
Proof. rewrite <- list_fmap_compose. by apply list_fmap_ext. Qed.

Lemma mounted_step_back toLowerCase s e :
  mounted (step toLowerCase s e).1 = true → mounted s = true.
Proof.
  destruct e as [v|id|id|o|ms|];
    [simpl|simpl|simpl|simpl|rewrite step_Elapse|simpl].
  - destruct (mounted s) eqn:Hm; simpl; intros; congruence.
  - destruct (mounted s) eqn:Hm; simpl; intros; congruence.
  - destruct (mounted s) eqn:Hm; simpl; intros; congruence.
  - destruct (fetchInFlight s); [|done]. unfold settleFetch.
    by destruct (fetchProducts o).
  - by destruct (elapse_fields ms s) as (->&_).
  - destruct (mounted s) eqn:Hm; simpl; intros; congruence.
Qed.

Lemma handleSearchChange_sets s v : searchKey (handleSearchChange v s) = v.
Proof.
  unfold handleSearchChange. case_bool_decide; [done|].
  unfold debounceEffect. simpl.
  apply (debounceCleanup_fields (mkState _ _ _ _ _ _ _ _ _ _)).
Qed.

Section Page.
Variable toLowerCase : string → string.
Abbreviation step := (step toLowerCase).
Abbreviation run := (run toLowerCase).
Abbreviation render := (render toLowerCase).

(** X10: the cards on the page follow the product list: their keys are
    a sublist of the product ids in fetch order, so there are never
    more cards than products and distinct product ids give distinct
    keys; and every card is the card of a product of the list whose
    name matches the debounced query. *)
Theorem cards_follow_products (s : State) :
  sublist (key <$> cards (render s)) (productId <$> products s)
  ∧ length (cards (render s)) ≤ length (products s)
  ∧ (NoDup (productId <$> products s) → NoDup (key <$> cards (render s)))
  ∧ (∀ c, c ∈ cards (render s) →
       ∃ p, p ∈ products s ∧ c = renderCard (imageLoading s) p
            ∧ name_contains toLowerCase (debouncedSearchKey s) p).
Proof.
  pose proof (filter_selected (matchesQuery toLowerCase (debouncedSearchKey s))
                (products s)) as Hsel.
  assert (Hsub : sublist (key <$> cards (render s)) (productId <$> products s)).
  { unfold render; simpl. rewrite key_renderCard.
    by apply fmap_sublist, (selected_sublist _ _ _ Hsel). }
  split_and!; [done| | |].
  - apply sublist_length in Hsub. by rewrite !length_fmap in Hsub.
  - intros Hnd. by apply (sublist_NoDup _ _ Hnd).
  - intros c (p&->&Hp)%list_elem_of_fmap.
    apply (selected_elem_of _ _ _ _ Hsel) in Hp as [Hin Hm].
    exists p. split_and!; [done|done|].
    by apply matchesQuery_name_contains.
Qed.

(** The cards after an update of the entry of [id]: the same keys, the
    cards of other ids as they were. *)
Lemma cards_after_insert s id v :
  key <$> cards (render (setImageLoading (λ m, <[id := v]> m) s))
  = key <$> cards (render s)
  ∧ (∀ c, c ∈ cards (render (setImageLoading (λ m, <[id := v]> m) s)) →
          key c = id →
          ∃ p, productId p = id
               ∧ c = renderCard (<[id := v]> (imageLoading s)) p)
  ∧ (∀ i c, cards (render (setImageLoading (λ m, <[id := v]> m) s)) !! i = Some c →
            key c ≠ id → cards (render s) !! i = Some c).
Proof.
  unfold render; simpl. rewrite !key_renderCard. split_and!; [done|..].
  - intros c (p&->&_)%list_elem_of_fmap Hk. by exists p.
  - intros i c Hc Hk. rewrite list_lookup_fmap in Hc. rewrite list_lookup_fmap.
    destruct (filteredProducts toLowerCase (products s) (debouncedSearchKey s) !! i)
      as [p|]; [|done].
    simpl in Hc. injection Hc as <-. simpl in Hk. simpl. f_equal.
    symmetry. apply renderCard_lookup_eq. by rewrite lookup_insert_ne.
Qed.

(** X11: when the image of a card on the page raises an error, the
    page keeps the same cards in the same order, every card of that id
    now shows "Image not available" with the image hidden, and every
    other card is exactly what it was; a load event likewise makes the
    cards of that id show the image and no placeholder. *)
Theorem image_event_updates_its_card (s : State) (id : string) :
  mounted s = true → displayed toLowerCase id s = true →
  (key <$> cards (render (step s (ImageError id)).1) = key <$> cards (render s)
   ∧ (∀ c, c ∈ cards (render (step s (ImageError id)).1) → key c = id →
           shows ErrorRender c)
   ∧ (∀ i c, cards (render (step s (ImageError id)).1) !! i = Some c →
             key c ≠ id → cards (render s) !! i = Some c))
  ∧ (key <$> cards (render (step s (ImageLoad id)).1) = key <$> cards (render s)
     ∧ (∀ c, c ∈ cards (render (step s (ImageLoad id)).1) → key c = id →
             shows LoadedRender c)
     ∧ (∀ i c, cards (render (step s (ImageLoad id)).1) !! i = Some c →
               key c ≠ id → cards (render s) !! i = Some c))
  ∧ ∃ c, c ∈ cards (render s) ∧ key c = id.
Proof.
  intros Hm Hd.
  assert (He : (step s (ImageError id)).1
               = setImageLoading (λ m, <[id := ErrorTag]> m) s)
    by (simpl; by rewrite Hm, Hd).
  assert (Hl : (step s (ImageLoad id)).1
               = setImageLoading (λ m, <[id := Flag false]> m) s)
    by (simpl; by rewrite Hm, Hd).
  rewrite He, Hl.
  destruct (cards_after_insert s id ErrorTag) as (Hk1&Hs1&Ho1).
  destruct (cards_after_insert s id (Flag false)) as (Hk2&Hs2&Ho2).
  split_and!; try done.
  - intros c Hc Hk. destruct (Hs1 c Hc Hk) as (p&<-&->).
    pose proof (renderCard_shows (<[productId p := ErrorTag]> (imageLoading s)) p)
      as Hshow.
    unfold status in Hshow. by rewrite lookup_insert_eq in Hshow.
  - intros c Hc Hk. destruct (Hs2 c Hc Hk) as (p&<-&->).
    pose proof (renderCard_shows (<[productId p := Flag false]> (imageLoading s)) p)
      as Hshow.
    unfold status in Hshow. by rewrite lookup_insert_eq in Hshow.
  - unfold displayed in Hd. apply bool_decide_eq_true in Hd.
    apply list_elem_of_fmap in Hd as (c&->&Hc). by exists c.
Qed.

(** X12: a keystroke changes what the input shows and nothing else on
    the page: the cards are the ones rendered before, the product list,
    the debounced query and the image statuses are untouched, and
    nothing is called outside the component. *)
Theorem keystroke_changes_only_input (s : State) (v : string) :
  mounted s = true →
  (step s (Change v)).2 = []
  ∧ inputValue (render (step s (Change v)).1) = v
  ∧ cards (render (step s (Change v)).1) = cards (render s)
  ∧ products (step s (Change v)).1 = products s
  ∧ debouncedSearchKey (step s (Change v)).1 = debouncedSearchKey s
  ∧ imageLoading (step s (Change v)).1 = imageLoading s.
Proof.
  intros Hm. rewrite step_Change by done. cbn [fst snd].
  assert (Hf : products (handleSearchChange v s) = products s
             ∧ debouncedSearchKey (handleSearchChange v s) = debouncedSearchKey s
             ∧ imageLoading (handleSearchChange v s) = imageLoading s).
  { unfold handleSearchChange. case_bool_decide; [done|].
    unfold debounceEffect. simpl.
    destruct (debounceCleanup_fields (mkState (mounted s) (products s) v
      (debouncedSearchKey s) (imageLoading s) (handler s) (now s) (timers s)
      (nextTimerId s) (fetchInFlight s))) as (_&?&_&?&?&_). by split_and!. }
  destruct Hf as (Hp&Hd&Hi).
  split_and!; try done.
  - apply handleSearchChange_sets.
  - unfold render; simpl. by rewrite Hp, Hd, Hi.
Qed.

Lemma run_searchKey_last (t0 : nat) (es : list Event) :
  mounted (run (mount t0).1 es).1 = true →
  searchKey (run (mount t0).1 es).1 = default "" (last (typed es)).
Proof.
  induction es as [|e es IH] using rev_ind; [done|].
  rewrite run_snoc. intros Hm.
  pose proof (mounted_step_back _ _ _ Hm) as Hm'. specialize (IH Hm').
  unfold typed in *. rewrite omap_app.
  destruct (step_searchKey toLowerCase (run (mount t0).1 es).1 e)
    as [Hk|(v&->&Hk)].
  - destruct e as [v| | | | |];
      [|rewrite Hk; simpl; by rewrite app_nil_r..].
    rewrite step_Change by done. cbn [fst]. rewrite handleSearchChange_sets.
    simpl. by rewrite last_snoc.
  - rewrite Hk. simpl. by rewrite last_snoc.
Qed.

(** X13: the input is controlled by the raw query: as long as the
    component is mounted, the input shows the last value typed, or the
    empty string when nothing was typed yet. *)
Theorem input_shows_last_typed (t0 : nat) (es : list Event) :
  mounted (run (mount t0).1 es).1 = true →
  inputValue (render (run (mount t0).1 es).1) = default "" (last (typed es)).
Proof. intros Hm. by apply run_searchKey_last. Qed.

(** X14: only the image events of an id touch the entry of that id:
    along any events that are not a load or error event of [id] (the
    product list arriving, typing, timers, other images, teardown) the
    entry of [id] stays what it was. *)
Theorem entry_changes_only_by_own_image_event
    (s : State) (es : list Event) (id : string) :
  Forall (λ e, imageEventFor id e = false) es →
  imageLoading (run s es).1 !! id = imageLoading s !! id.
Proof.
  intros Hes; revert s; induction Hes as [|e es He _ IH]; intros s; [done|].
  rewrite run_cons. cbn [fst]. rewrite IH.
  destruct (step_imageLoading toLowerCase s e)
    as [->|[(i&->&->)|(i&->&->)]]; [done|..];
    simpl in He; apply bool_decide_eq_false in He;
    unfold handleImageLoad, handleImageError; by rewrite lookup_insert_ne.
Qed.
End Page.

(** X15: on every card the three things derived from the status agree:
    the image is displayed exactly when no placeholder is rendered, and
    exactly when its class carries [loaded]; the key, the [src] and the
    [alt] text come from the product. *)
Theorem card_parts_agree (m : ImageLoadingState) (prod : Product) :
  (placeholder (renderCard m prod) = None
   ↔ displayNone (img (renderCard m prod)) = false)
  ∧ (displayNone (img (renderCard m prod)) = false
     ↔ className (img (renderCard m prod)) = "product-image loaded")
  ∧ (displayNone (img (renderCard m prod)) = true
     ↔ className (img (renderCard m prod)) = "product-image ")
  ∧ key (renderCard m prod) = productId prod
  ∧ src (img (renderCard m prod)) = productImage prod
  ∧ alt (img (renderCard m prod)) = productName prod +:+ " Image".
Proof.
  unfold renderCard, strictEq; simpl.
  destruct (m !! productId prod) as [[[|]|]|]; simpl; split_and!; done.
Qed.

Lemma cards_follow_products_witness :
  NoDup (productId <$> products
    (run asciiToLowerCase (mount 0).1
       [FetchSettled (FetchResponse 200 (inr [redShoe; blueHat]));
        Change "hat"; Elapse 300]).1)
  ∧ NoDup (key <$> cards (render asciiToLowerCase
      (run asciiToLowerCase (mount 0).1
         [FetchSettled (FetchResponse 200 (inr [redShoe; blueHat]));
          Change "hat"; Elapse 300]).1)).
Proof.
  assert (Hnd : NoDup (productId <$> products
            (run asciiToLowerCase (mount 0).1
               [FetchSettled (FetchResponse 200 (inr [redShoe; blueHat]));
                Change "hat"; Elapse 300]).1)).
  { apply (bool_decide_unpack _). by vm_compute. }
  split; [done|].
  by apply (cards_follow_products asciiToLowerCase
              (run asciiToLowerCase (mount 0).1
                 [FetchSettled (FetchResponse 200 (inr [redShoe; blueHat]));
                  Change "hat"; Elapse 300]).1).
Defined.

Lemma image_event_updates_its_card_witness :
  mounted (run asciiToLowerCase (mount 0).1
             [FetchSettled (FetchResponse 200 (inr [redShoe; blueHat]))]).1 = true
  ∧ displayed asciiToLowerCase "2"
      (run asciiToLowerCase (mount 0).1
         [FetchSettled (FetchResponse 200 (inr [redShoe; blueHat]))]).1 = true
  ∧ key <$> cards (render asciiToLowerCase
      (step asciiToLowerCase
         (run asciiToLowerCase (mount 0).1
            [FetchSettled (FetchResponse 200 (inr [redShoe; blueHat]))]).1
         (ImageError "2")).1)
    = key <$> cards (render asciiToLowerCase
        (run asciiToLowerCase (mount 0).1
           [FetchSettled (FetchResponse 200 (inr [redShoe; blueHat]))]).1).
Proof.
  split_and!; [reflexivity|reflexivity|].
  apply (image_event_updates_its_card asciiToLowerCase
           (run asciiToLowerCase (mount 0).1
              [FetchSettled (FetchResponse 200 (inr [redShoe; blueHat]))]).1 "2");
    reflexivity.
Defined.

Lemma keystroke_changes_only_input_witness :
  mounted (run asciiToLowerCase (mount 0).1
             [FetchSettled (FetchResponse 200 (inr [redShoe; blueHat]))]).1 = true
  ∧ cards (render asciiToLowerCase
      (step asciiToLowerCase
         (run asciiToLowerCase (mount 0).1
            [FetchSettled (FetchResponse 200 (inr [redShoe; blueHat]))]).1
         (Change "hat")).1)
    = cards (render asciiToLowerCase
        (run asciiToLowerCase (mount 0).1
           [FetchSettled (FetchResponse 200 (inr [redShoe; blueHat]))]).1).
Proof.
  split; [reflexivity|].
  apply (keystroke_changes_only_input asciiToLowerCase
           (run asciiToLowerCase (mount 0).1
              [FetchSettled (FetchResponse 200 (inr [redShoe; blueHat]))]).1 "hat").
  reflexivity.
Defined.

Lemma input_shows_last_typed_witness :
  mounted (run asciiToLowerCase (mount 0).1
             [Change "r"; Elapse 100; Change "re"; ImageLoad "1"]).1 = true
  ∧ inputValue (render asciiToLowerCase
      (run asciiToLowerCase (mount 0).1
         [Change "r"; Elapse 100; Change "re"; ImageLoad "1"]).1)
    = "re".
Proof.
  split; [reflexivity|].
  by rewrite (input_shows_last_typed asciiToLowerCase 0
                [Change "r"; Elapse 100; Change "re"; ImageLoad "1"] eq_refl).
Defined.

Lemma entry_changes_only_by_own_image_event_witness :
  Forall (λ e, imageEventFor "1" e = false)
    [ImageError "2"; Change "hat"; Elapse 300; Change ""; Elapse 300; Unmount]
  ∧ imageLoading
      (run asciiToLowerCase
         (run asciiToLowerCase (mount 0).1
            [FetchSettled (FetchResponse 200 (inr [redShoe; blueHat]));
             ImageLoad "1"]).1
         [ImageError "2"; Change "hat"; Elapse 300; Change ""; Elapse 300;
          Unmount]).1 !! "1"
    = Some (Flag false).
Proof.
  assert (Hes : Forall (λ e, imageEventFor "1" e = false)
            [ImageError "2"; Change "hat"; Elapse 300; Change ""; Elapse 300;
             Unmount])
    by (repeat constructor).
  split; [done|].
  by rewrite (entry_changes_only_by_own_image_event asciiToLowerCase
                (run asciiToLowerCase (mount 0).1
                   [FetchSettled (FetchResponse 200 (inr [redShoe; blueHat]));
                    ImageLoad "1"]).1
                [ImageError "2"; Change "hat"; Elapse 300; Change ""; Elapse 300;
                 Unmount] "1" Hes).
Defined.
